(** * Verification of [game.js]: the generalised rock-paper-scissors rules
    matrix and the HMAC commitment.

    The development is a shallow embedding of [src/game.js].  JavaScript
    numbers that hold array indices are modelled as [Z]; arrays are lists
    read with stdpp's lookup and written with [alter]/insert; the strings
    ['Win'], ['Lose'] and ['Draw'] stored in the matrix are an enumeration;
    a [throw] is the [Throw] constructor of [completion]. *)

From Stdlib Require Import ZArith QArith Lia.
From Stdlib Require Import Strings.Byte Strings.Ascii Strings.String.
From stdpp Require Import base option list strings gmap.

Local Open Scope Z_scope.

(** ** Values *)

(** The three strings the rules matrix holds. *)
Inductive Outcome : Set := Win | Lose | Draw.

#[global] Instance Outcome_eq_dec : EqDecision Outcome.
Proof. solve_decision. Defined.

(** The result of running a JavaScript expression: a value, [undefined]
    (reading past the end of an array), or a thrown [Error] with its
    message. *)
Inductive completion (A : Type) : Type :=
  | Normal (v : A)
  | Undefined
  | Throw (msg : string).
Arguments Normal {A} v.
Arguments Undefined {A}.
Arguments Throw {A} msg.

#[global] Instance completion_eq_dec {A} `{EqDecision A} :
  EqDecision (completion A).
Proof. solve_decision. Defined.

(** The rules matrix: an array of rows. *)
Abbreviation matrix := (list (list Outcome)).

(** ** [GameRules] *)

Module GameRules.

Record t : Type := new_ { moves : list string; rulesMatrix : matrix }.

(** [matrix[i][c] = v].  Both indices are inside the matrix wherever
    [generateRulesMatrix] writes (lemma [writes_in_range] below), so the
    growth of a JavaScript array on a write past its end never happens. *)
Definition set_cell (m : matrix) (i c : Z) (v : Outcome) : matrix :=
  alter (fun row => <[Z.to_nat c := v]> row) (Z.to_nat i) m.

(** Reading [matrix[r][c]]; [None] when an index is past the end. *)
Definition cell (m : matrix) (r c : nat) : option Outcome :=
  m !! r ≫= fun row => row !! c.

(** The test [j <= (n - 1) / 2] of the inner loop.  [/] is the division of
    JavaScript numbers, which is exact here ([(n - 1) / 2] is an integer or
    a half-integer), so it is the division of rationals. *)
Definition inner_test (j n : Z) : bool :=
  Qle_bool (inject_Z j) (inject_Z (n - 1) / inject_Z 2).

(** [for (let j = 1; j <= (n - 1) / 2; j++) { ... }], entered at [j]. *)
Fixpoint inner_loop (fuel : nat) (n i j : Z) (m : matrix) : matrix :=
  match fuel with
  | O => m
  | S fuel' =>
      if inner_test j n then
        let winIndex := Z.rem (i + j) n in
        let loseIndex := Z.rem (i - j + n) n in
        let m := set_cell m i winIndex Win in
        let m := set_cell m i loseIndex Lose in
        inner_loop fuel' n i (j + 1) m
      else m
  end.

(** [for (let i = 0; i < n; i++) { ... }], entered at [i]; [inner] is the
    fuel of each run of the inner loop. *)
Fixpoint outer_loop (fuel inner : nat) (n i : Z) (m : matrix) : matrix :=
  match fuel with
  | O => m
  | S fuel' =>
      if i <? n then outer_loop fuel' inner n (i + 1) (inner_loop inner n i 1 m)
      else m
  end.

(** [Array.from({ length: n }, () => Array(n).fill('Draw'))]: the callback
    runs once per row, so the rows are [n] separate arrays. *)
Definition fresh_matrix (n : nat) : matrix := replicate n (replicate n Draw).

(** Both loops leave by their test within [n + 1] rounds: more fuel gives
    the same matrix (lemma [generateRulesMatrix_fuel]). *)
Definition generateRulesMatrix (moves : list string) : matrix :=
  let n := length moves in
  outer_loop (S n) (S n) (Z.of_nat n) 0 (fresh_matrix n).

(** [constructor(moves)]. *)
Definition new (moves : list string) : t :=
  new_ moves (generateRulesMatrix moves).

(** [moves.indexOf(x)]: the first index holding [x], [-1] when there is
    none. *)
Fixpoint indexOf_from (l : list string) (x : string) (k : Z) : Z :=
  match l with
  | [] => -1
  | y :: l' => if decide (y = x) then k else indexOf_from l' x (k + 1)
  end.

Definition indexOf (l : list string) (x : string) : Z := indexOf_from l x 0.

Definition invalid_move_message : string :=
  "Invalid move selected. Please choose a valid move.".

(** [determineResult(playerMove, computerMove)].  Reading a cell of a row
    that does not exist is a [TypeError]; reading past the end of a row
    gives [undefined]. *)
Definition determineResult (g : t) (playerMove computerMove : string)
  : completion Outcome :=
  let playerIndex := indexOf (moves g) playerMove in
  let computerIndex := indexOf (moves g) computerMove in
  if (playerIndex =? -1) || (computerIndex =? -1) then
    Throw invalid_move_message
  else
    match rulesMatrix g !! Z.to_nat playerIndex with
    | None => Throw "TypeError: Cannot read properties of undefined"
    | Some row =>
        match row !! Z.to_nat computerIndex with
        | None => Undefined
        | Some v => Normal v
        end
    end.

(** [displayHelp()]: the header and the rows of the table it prints, one
    row per move with that move as its label, and the sentence printed under
    the table; the padding, the borders and the bold face are left out. *)
Definition help_header (g : t) : list string :=
  "v PC\User >"%string :: moves g.

Definition help_rows (g : t) : list (string * list Outcome) :=
  zip (moves g) (rulesMatrix g).

Definition help_example : string :=
  "If you choose Rock and the computer chooses Scissors, you Win.".

End GameRules.

(** ** The command line *)

(** A run of the script up to a point: still running with a value, or
    ended by [process.exit(code)] after writing lines to standard error. *)
Inductive process (A : Type) : Type :=
  | Running (v : A)
  | Exited (code : Z) (stderr : list string).
Arguments Running {A} v.
Arguments Exited {A} code stderr.

Definition process_bind {A B} (p : process A) (k : A -> process B) : process B :=
  match p with
  | Running v => k v
  | Exited code err => Exited code err
  end.

Module RockPaperScissorsGame.

Record t : Type := new_ { moves : list string; rules : GameRules.t }.

(** [constructor(moves)]. *)
Definition new (moves : list string) : t :=
  new_ moves (GameRules.new moves).

End RockPaperScissorsGame.

(** [new Set(args).size]. *)
Definition Set_size (args : list string) : nat :=
  size (list_to_set args : gset string).

Definition usage : list string :=
  [ "Error: Please provide an odd number of unique moves (â‰¥ 3).";
    "Example: node game.js rock paper scissors" ]%string.

(** [validateArguments(args)]. *)
Definition validateArguments (args : list string) : process unit :=
  let length := Z.of_nat (length args) in
  if (length <? 3) || (Z.rem length 2 =? 0)
     || negb (Z.of_nat (Set_size args) =? length)
  then Exited 1 usage
  else Running tt.

(** The script from [const args = process.argv.slice(2)] to the
    construction of the game; [game.start()], which draws the random key
    and move and talks to the terminal, is not modelled. *)
Definition main (args : list string) : process RockPaperScissorsGame.t :=
  process_bind (validateArguments args) (fun _ =>
  Running (RockPaperScissorsGame.new args)).

(** ** The commitment *)

(** Modelled from the spec: the hash behind "HMAC-SHA256".  [game.js] takes
    it from Node's [crypto] module, which is not part of the repository;
    this is SHA-256 as FIPS 180-4 defines it, on 32-bit words held in [Z]
    with the wrap-around written out.  The examples after the definitions
    check it against published digests. *)
Module SHA256.

Definition wrap32 (x : Z) : Z := x mod 2 ^ 32.
Definition add32 (x y : Z) : Z := wrap32 (x + y).
Definition rotr (k x : Z) : Z :=
  wrap32 (Z.lor (Z.shiftr x k) (Z.shiftl x (32 - k))).
Definition shr (k x : Z) : Z := Z.shiftr x k.

Definition Ch (x y z : Z) : Z := Z.lxor (Z.land x y) (Z.land (Z.lnot x) z).
Definition Maj (x y z : Z) : Z :=
  Z.lxor (Z.lxor (Z.land x y) (Z.land x z)) (Z.land y z).
Definition Sigma0 (x : Z) : Z := Z.lxor (Z.lxor (rotr 2 x) (rotr 13 x)) (rotr 22 x).
Definition Sigma1 (x : Z) : Z := Z.lxor (Z.lxor (rotr 6 x) (rotr 11 x)) (rotr 25 x).
Definition sigma0 (x : Z) : Z := Z.lxor (Z.lxor (rotr 7 x) (rotr 18 x)) (shr 3 x).
Definition sigma1 (x : Z) : Z := Z.lxor (Z.lxor (rotr 17 x) (rotr 19 x)) (shr 10 x).

(** The first 64 primes. *)
Definition is_prime (p : nat) : bool :=
  forallb (fun d => negb (p mod d =? 0)%nat) (seq 2 (p - 2)).

Definition primes : list Z :=
  Eval vm_compute in Z.of_nat <$> take 64 (List.filter is_prime (seq 2 310)).

(** The integer cube root of [x], built from bit [bits - 1] downwards. *)
Fixpoint cube_root (bits : nat) (x r : Z) : Z :=
  match bits with
  | O => r
  | S bits' =>
      let r' := r + 2 ^ Z.of_nat bits' in
      cube_root bits' x (if r' ^ 3 <=? x then r' else r)
  end.

(** The round constants: the first 32 bits of the fractional parts of the
    cube roots of the first 64 primes. *)
Definition K : list Z :=
  Eval vm_compute in (fun p => wrap32 (cube_root 36 (p * 2 ^ 96) 0)) <$> primes.

(** The eight working words of the compression function. *)
Record state : Type :=
  State { wa : Z; wb : Z; wc : Z; wd : Z; we : Z; wf : Z; wg : Z; wh : Z }.

(** The initial hash value: the first 32 bits of the fractional parts of the
    square roots of the first 8 primes. *)
Definition initial_word (k : nat) : Z :=
  wrap32 (Z.sqrt (default 0 (primes !! k) * 2 ^ 64)).

Definition H0 : state :=
  Eval vm_compute in
    State (initial_word 0) (initial_word 1) (initial_word 2) (initial_word 3)
          (initial_word 4) (initial_word 5) (initial_word 6) (initial_word 7).

(** [count] bytes of [x], most significant first. *)
Fixpoint be_bytes (count : nat) (x : Z) : list Z :=
  match count with
  | O => []
  | S count' => (Z.shiftr x (8 * Z.of_nat count')) mod 256 :: be_bytes count' x
  end.

Definition be_word (bytes : list Z) : Z :=
  foldl (fun acc b => acc * 256 + b) 0 bytes.

Definition pad (msg : list Z) : list Z :=
  let len := Z.of_nat (length msg) in
  msg ++ [0x80] ++ replicate (Z.to_nat ((55 - len) mod 64)) 0
      ++ be_bytes 8 (8 * len).

(** [count] consecutive groups of [size] entries. *)
Fixpoint groups {A} (size count : nat) (l : list A) : list (list A) :=
  match count with
  | O => []
  | S count' => take size l :: groups size count' (drop size l)
  end.

Definition schedule_step (w : list Z) : list Z :=
  let t := length w in
  let at_ (k : nat) := default 0 (w !! (t - k)%nat) in
  w ++ [add32 (add32 (add32 (sigma1 (at_ 2%nat)) (at_ 7%nat)) (sigma0 (at_ 15%nat)))
              (at_ 16%nat)].

Definition schedule (block : list Z) : list Z :=
  Nat.iter 48 schedule_step (be_word <$> groups 4 16 block).

Definition round (s : state) (kw : Z * Z) : state :=
  let T1 := add32 (add32 (add32 (add32 (wh s) (Sigma1 (we s)))
                                (Ch (we s) (wf s) (wg s))) kw.1) kw.2 in
  let T2 := add32 (Sigma0 (wa s)) (Maj (wa s) (wb s) (wc s)) in
  State (add32 T1 T2) (wa s) (wb s) (wc s) (add32 (wd s) T1) (we s) (wf s) (wg s).

Definition compress (h : state) (block : list Z) : state :=
  let s := foldl round h (zip K (schedule block)) in
  State (add32 (wa h) (wa s)) (add32 (wb h) (wb s)) (add32 (wc h) (wc s))
        (add32 (wd h) (wd s)) (add32 (we h) (we s)) (add32 (wf h) (wf s))
        (add32 (wg h) (wg s)) (add32 (wh h) (wh s)).

Definition byte_of_Z (z : Z) : byte :=
  default x00 (Byte.of_N (Z.to_N (z mod 256))).

Definition Z_of_byte (b : byte) : Z := Z.of_N (Byte.to_N b).

Definition word_bytes (w : Z) : list byte := byte_of_Z <$> be_bytes 4 w.

Definition digest (h : state) : list byte :=
  word_bytes (wa h) ++ word_bytes (wb h) ++ word_bytes (wc h) ++ word_bytes (wd h)
  ++ word_bytes (we h) ++ word_bytes (wf h) ++ word_bytes (wg h) ++ word_bytes (wh h).

(** Modelled from the spec: the SHA-256 digest of a message, the hash of
    "HMAC-SHA256", which Node's [crypto] computes for [game.js]. *)
Definition sha256 (msg : list byte) : list byte :=
  let padded := pad (Z_of_byte <$> msg) in
  digest (foldl compress H0 (groups 64 (length padded / 64) padded)).

End SHA256.

(** Modelled from the spec: "HMAC-SHA256(key, utf8(move)) encoded as
    lowercase hex", that is what [crypto.createHmac('sha256', key)],
    [.update(message)] and [.digest('hex')] of Node's [crypto] module compute
    (RFC 2104 over SHA-256).  A [Buffer] is a list of bytes. *)
Module crypto.

Definition block_size : nat := 64.

Definition xor_byte (c : Z) (b : byte) : byte :=
  SHA256.byte_of_Z (Z.lxor (SHA256.Z_of_byte b) c).

(** Modelled from the spec: "HMAC-SHA256(key, ...)", the keyed hash that
    [crypto.createHmac('sha256', key)] of Node computes (RFC 2104). *)
Definition hmac_sha256 (key msg : list byte) : list byte :=
  let k := if decide (block_size < length key)%nat then SHA256.sha256 key else key in
  let k := k ++ replicate (block_size - length k) x00 in
  SHA256.sha256 ((xor_byte 0x5c <$> k)
                 ++ SHA256.sha256 ((xor_byte 0x36 <$> k) ++ msg)).

(** The bytes of a string in UTF-8; a [string] of the model is that byte
    sequence already. *)
Definition utf8 (s : string) : list byte :=
  Ascii.byte_of_ascii <$> list_ascii_of_string s.

Definition hex_digits : list Ascii.ascii :=
  list_ascii_of_string "0123456789abcdef".

Definition hex_digit (n : N) : Ascii.ascii :=
  nth (N.to_nat n) hex_digits "0"%char.

(** Modelled from the spec: "encoded as lowercase hex", what
    [.digest('hex')] of Node returns: two digits per byte. *)
Fixpoint hex (bytes : list byte) : string :=
  match bytes with
  | [] => EmptyString
  | b :: bytes' =>
      String (hex_digit (Byte.to_N b / 16))
        (String (hex_digit (Byte.to_N b mod 16)) (hex bytes'))
  end.

(** The object [createHmac] returns: the key and the data fed so far. *)
Record Hmac : Type := Hmac_ { hmac_key : list byte; hmac_data : list byte }.

Definition createHmac_sha256 (key : list byte) : Hmac := Hmac_ key [].

Definition update (h : Hmac) (message : string) : Hmac :=
  Hmac_ (hmac_key h) (hmac_data h ++ utf8 message).

Definition digest_hex (h : Hmac) : string :=
  hex (hmac_sha256 (hmac_key h) (hmac_data h)).

End crypto.

Module HMACCalculator.

(** [calculateHMAC(key, message)]. *)
Definition calculateHMAC (key : list byte) (message : string) : string :=
  crypto.digest_hex (crypto.update (crypto.createHmac_sha256 key) message).

End HMACCalculator.

(** Modelled from the spec: [verify(key, move, commitment)], which
    [game.js] does not have (the player checks the printed HMAC outside the
    program): it "recomputes [commit(key, move)] and compares byte-for-byte
    to the supplied [commitment]"; [commit] is [calculateHMAC]. *)
Definition verify (key : list byte) (move commitment : string) : bool :=
  String.eqb (HMACCalculator.calculateHMAC key move) commitment.

(** ** Vocabulary of the statements *)

(** The lists of moves the command line lets through: at least three, an
    odd number, no repetition. *)
Definition valid_moves (moves : list string) : Prop :=
  (3 <= length moves)%nat /\ Nat.odd (length moves) = true /\ NoDup moves.

#[global] Instance valid_moves_dec moves : Decision (valid_moves moves).
Proof. unfold valid_moves. apply _. Defined.

(** An [n]-by-[n] array of arrays. *)
Definition square (n : nat) (m : matrix) : Prop :=
  length m = n /\ Forall (fun row => length row = n) m.

(** The outcome that the loops stamp on the cell in row [r], column [k]
    of a matrix of side [n], over what was there before. *)
Definition stamp (n r k : Z) (old : option Outcome) : option Outcome :=
  if decide (1 <= (k - r) mod n /\ 2 * ((k - r) mod n) <= n - 1) then Some Win
  else if decide (1 <= (r - k) mod n /\ 2 * ((r - k) mod n) <= n - 1) then Some Lose
  else old.

(** The content of a cell of the finished matrix, as a function of its
    coordinates alone. *)
Definition rule (n r k : Z) : Outcome :=
  if decide (1 <= (k - r) mod n /\ 2 * ((k - r) mod n) <= n - 1) then Win
  else if decide (1 <= (r - k) mod n /\ 2 * ((r - k) mod n) <= n - 1) then Lose
  else Draw.

(** The number of cells of [row] that hold [o]. *)
Definition count (o : Outcome) (row : list Outcome) : nat :=
  length (filter (fun x => x = o) row).

(** The row of an odd-sided matrix read from its diagonal cell onwards. *)
Definition balanced_row (h : nat) : list Outcome :=
  Draw :: replicate h Win ++ replicate h Lose.

Definition rps : list string := ["rock"; "paper"; "scissors"]%string.

(** A character of a lowercase hexadecimal numeral. *)
Definition is_lower_hex (c : Ascii.ascii) : Prop := c ∈ crypto.hex_digits.

(** ['Win'] and ['Lose'] exchanged: the same game seen by the other
    player. *)
Definition flip_outcome (o : Outcome) : Outcome :=
  match o with
  | Win => Lose
  | Lose => Win
  | Draw => Draw
  end.

(** The row of an even-sided matrix read from its diagonal cell onwards:
    the cell half-way round is a second ['Draw']. *)
Definition even_row (h : nat) : list Outcome :=
  Draw :: replicate h Win ++ Draw :: replicate h Lose.
(** ** Strings and numbers of JavaScript *)

(** The built-in operations [game.js] uses to print its table and to read
    the user's choice, as ECMAScript defines them.  A [string] of the model
    is the UTF-8 form of the JavaScript string. *)
Module JS.

(** The UTF-16 code units that the character starting at a byte takes:
    none for a continuation byte, two for the lead byte of a four-byte
    sequence. *)
Definition code_units (c : Ascii.ascii) : nat :=
  let b := N_of_ascii c in
  if (b <? 128)%N then 1%nat
  else if (b <? 192)%N then 0%nat
  else if (b <? 240)%N then 1%nat
  else 2%nat.

(** [s.length]. *)
Fixpoint utf16_length (s : string) : nat :=
  match s with
  | EmptyString => 0%nat
  | String c s' => (code_units c + utf16_length s')%nat
  end.

(** [s.repeat(count)]. *)
Fixpoint repeat (s : string) (count : nat) : string :=
  match count with
  | O => EmptyString
  | S count' => s +:+ repeat s count'
  end.

(** [s.padEnd(target)] and [s.padStart(target)], padding with spaces. *)
Definition padEnd (s : string) (target : nat) : string :=
  s +:+ repeat " " (target - utf16_length s).

Definition padStart (s : string) (target : nat) : string :=
  repeat " " (target - utf16_length s) +:+ s.

(** [l.join(sep)]. *)
Fixpoint join (sep : string) (l : list string) : string :=
  match l with
  | [] => EmptyString
  | [x] => x
  | x :: l' => x +:+ sep +:+ join sep l'
  end.

(** The decimal digits of [n], least significant first. *)
Fixpoint lsb_digits (fuel n : nat) : list nat :=
  match fuel with
  | O => []
  | S fuel' =>
      (n mod 10)%nat ::
        (if (n / 10 =? 0)%nat then [] else lsb_digits fuel' (n / 10))
  end.

Definition digit_char (d : nat) : Ascii.ascii := ascii_of_nat (48 + d).

(** [String(n)] for a non-negative integer below [10^21], as in a template
    literal: its decimal numeral. *)
Definition Number_toString (n : nat) : string :=
  string_of_list_ascii (digit_char <$> reverse (lsb_digits (S n) n)).

(** One white space or line terminator at the head of a string, removed:
    TAB, LF, VT, FF, CR, SP, U+00A0, U+1680, U+2000 to U+200A, U+2028,
    U+2029, U+202F, U+205F, U+3000 and U+FEFF, in UTF-8. *)
Definition skip_white_space (s : string) : option string :=
  match N_of_ascii <$> list_ascii_of_string s with
  | (9 | 10 | 11 | 12 | 13 | 32)%N :: _ => Some (String.substring 1 (String.length s - 1) s)
  | 194%N :: 160%N :: _ => Some (String.substring 2 (String.length s - 2) s)
  | 225%N :: 154%N :: 128%N :: _
  | 226%N :: 128%N :: (128 | 129 | 130 | 131 | 132 | 133 | 134 | 135 | 136
                       | 137 | 138 | 168 | 169 | 175)%N :: _
  | 226%N :: 129%N :: 159%N :: _
  | 227%N :: 128%N :: 128%N :: _
  | 239%N :: 187%N :: 191%N :: _ =>
      Some (String.substring 3 (String.length s - 3) s)
  | _ => None
  end.

Fixpoint trimStart (fuel : nat) (s : string) : string :=
  match fuel with
  | O => s
  | S fuel' =>
      match skip_white_space s with
      | Some s' => trimStart fuel' s'
      | None => s
      end
  end.

(** The value of [c] as a digit in base [radix], if it is one. *)
Definition digit_value (radix : Z) (c : Ascii.ascii) : option Z :=
  let b := Z.of_N (N_of_ascii c) in
  let v := if (48 <=? b) && (b <=? 57) then b - 48
           else if (97 <=? b) && (b <=? 122) then b - 87
           else if (65 <=? b) && (b <=? 90) then b - 55
           else radix in
  if v <? radix then Some v else None.

(** The digits at the head of a string, up to the first character that is
    not a digit. *)
Fixpoint leading_digits (radix : Z) (s : string) : list Z :=
  match s with
  | EmptyString => []
  | String c s' =>
      match digit_value radix c with
      | Some d => d :: leading_digits radix s'
      | None => []
      end
  end.

Definition digits_value (radix : Z) (digits : list Z) : Z :=
  foldl (fun acc d => acc * radix + d) 0 digits.

(** [parseInt(s)] without a radix: white space is skipped, then a sign,
    then [0x] or [0X] selects base 16, then the digits are read up to the
    first character that is not one; [None] is [NaN].  The integer is kept
    exact: [game.js] only compares it with the number of moves, which
    rounding to a double leaves unchanged. *)
Definition parseInt (s : string) : option Z :=
  let s := trimStart (String.length s) s in
  let '(sign, s) :=
    match s with
    | String "-" s' => (-1, s')
    | String "+" s' => (1, s')
    | _ => (1, s)
    end in
  let '(radix, s) :=
    match s with
    | String "0" (String "x" s') | String "0" (String "X" s') => (16, s')
    | _ => (10, s)
    end in
  match leading_digits radix s with
  | [] => None
  | digits => Some (sign * digits_value radix digits)
  end.

End JS.

(** ** The terminal *)

(** What the script sends to the terminal: a line through [console.log], a
    line through [console.error], text through [process.stdout.write]. *)
Inductive event : Type :=
  | Log (line : string)
  | Error (line : string)
  | Write (text : string).

(** How far a run has got when its input is used up: waiting for the next
    chunk of input, ended by [process.exit(code)], ended by an exception
    nobody catches, or through with the round. *)
Inductive ending : Type :=
  | Waiting
  | Exit (code : Z)
  | Uncaught (msg : string)
  | Done.

Abbreviation run := (list event * ending)%type.

(** The run that first sends [events] and then goes on as [r]. *)
Definition emit (events : list event) (r : run) : run := (events ++ r.1, r.2).

Definition Outcome_string (o : Outcome) : string :=
  match o with
  | Win => "Win"
  | Lose => "Lose"
  | Draw => "Draw"
  end.

Section Terminal.

(** [chalk.bold], from the [chalk] package: what it adds to a string
    depends on the terminal. *)
Variable bold : string -> string.

(** [displayHelp()].  The relation comes from the constructor, so
    [rulesMatrix] has a row for every move. *)
Definition displayHelp (g : GameRules.t) : list event :=
  let header := GameRules.help_header g in
  let n := length (GameRules.moves g) in
  let border := ("+" +:+ JS.repeat "-" (13 + n * 10) +:+ "+")%string in
  [ Log border;
    Log (JS.padStart (bold (JS.join "|" ((fun h => JS.padEnd h 10) <$> header)))
           (13 + n * 10));
    Log border ]
  ++ mjoin ((fun r : string * list Outcome =>
               let row := JS.padEnd r.1 10
                          :: ((fun o => JS.padEnd (Outcome_string o) 10) <$> r.2) in
               [ Log ("| " +:+ JS.join "|" row +:+ " |"); Log border ])
            <$> GameRules.help_rows g)
  ++ [ Log (String "010" "Results are from your point of view. For example:");
       Log GameRules.help_example ].

(** [displayMenu()]. *)
Definition displayMenu (game : RockPaperScissorsGame.t) : list event :=
  [ Log "Available moves:" ]
  ++ imap (fun index move =>
             Log (JS.Number_toString (index + 1) +:+ " - " +:+ move))
       (RockPaperScissorsGame.moves game)
  ++ [ Log "0 - Exit"; Log "? - help" ].

Definition invalid_choice : string := "Invalid choice. Please try again.".

(** [getUserMove(callback)], run on the chunks of input still to come, each
    given as [data.toString().trim()].  A move that is [undefined] is
    [None]. *)
Fixpoint getUserMove (game : RockPaperScissorsGame.t)
    (callback : option string -> run) (inputs : list string) : run :=
  emit [ Write "Enter your move: " ]
    match inputs with
    | [] => ([], Waiting)
    | input :: inputs' =>
        if decide (input = "?"%string) then
          emit (displayHelp (RockPaperScissorsGame.rules game))
            (getUserMove game callback inputs')
        else if decide (input = "0"%string) then ([], Exit 0)
        else
          let moves := RockPaperScissorsGame.moves game in
          match JS.parseInt input with
          | Some parsed =>
              let choice := parsed - 1 in
              if (0 <=? choice) && (choice <? Z.of_nat (length moves)) then
                callback (moves !! Z.to_nat choice)
              else
                emit [ Log invalid_choice ] (getUserMove game callback inputs')
          | None =>
              emit [ Log invalid_choice ] (getUserMove game callback inputs')
          end
    end.

(** The callback [start()] hands to [getUserMove]. *)
Definition report (game : RockPaperScissorsGame.t) (key : list byte)
    (computerMove : string) (userMove : option string) : run :=
  match userMove with
  | None => ([], Uncaught GameRules.invalid_move_message)
  | Some userMove =>
      let lines (result : string) :=
        [ Log ("Your move: " +:+ userMove);
          Log ("Computer move: " +:+ computerMove);
          Log ("Result: You " +:+ result +:+ "!");
          Log ("HMAC key: " +:+ crypto.hex key) ] in
      match GameRules.determineResult (RockPaperScissorsGame.rules game)
              userMove computerMove with
      | Normal result => (lines (Outcome_string result), Done)
      | Undefined => (lines "undefined", Done)
      | Throw msg => ([], Uncaught msg)
      end
  end.

(** [start()], given the key that [KeyGenerator.generateKey()] draws and
    the index [pick] that [Math.floor(Math.random() * this.moves.length)]
    draws.  With no move at [pick] the message handed to the HMAC is
    [undefined], which [update] refuses. *)
Definition start (game : RockPaperScissorsGame.t) (key : list byte)
    (pick : nat) (inputs : list string) : run :=
  match RockPaperScissorsGame.moves game !! pick with
  | None => ([], Uncaught "TypeError [ERR_INVALID_ARG_TYPE]")
  | Some computerMove =>
      let hmac := HMACCalculator.calculateHMAC key computerMove in
      emit ([ Log ("HMAC: " +:+ hmac) ] ++ displayMenu game)
        (getUserMove game (report game key computerMove) inputs)
  end.

(** The whole script: [validateArguments(args)], the construction of the
    game and [game.start()]. *)
Definition script (args : list string) (key : list byte) (pick : nat)
    (inputs : list string) : run :=
  match validateArguments args with
  | Exited code stderr => (Error <$> stderr, Exit code)
  | Running _ => start (RockPaperScissorsGame.new args) key pick inputs
  end.

End Terminal.

(** The entry of the help table on the row labelled [pc] and in the column
    headed [user]. *)
Definition help_entry (g : GameRules.t) (pc user : string) : option Outcome :=
  r ← list_find (fun r : string * list Outcome => r.1 = pc) (GameRules.help_rows g);
  c ← list_find (fun h => h = user) (tail (GameRules.help_header g));
  r.2.2 !! c.1.

(** Reading a hexadecimal numeral back into bytes; [game.js] has no such
    function, the statements use it to say that [hex] loses nothing. *)
Definition hex_digit_value (c : Ascii.ascii) : option N :=
  (fun found : nat * Ascii.ascii => N.of_nat found.1)
    <$> list_find (fun h => h = c) crypto.hex_digits.

Fixpoint unhex (s : string) : option (list byte) :=
  match s with
  | EmptyString => Some []
  | String hi (String lo s') =>
      h ← hex_digit_value hi;
      l ← hex_digit_value lo;
      b ← Byte.of_N (16 * h + l);
      bytes ← unhex s';
      Some (b :: bytes)
  | _ => None
  end.

(** ** Tactics *)

(** Linear arithmetic with division and remainder by a constant. *)
Ltac div_lia := Z.div_mod_to_equations; lia.

(** Closes a decidable goal about concrete data by evaluation. *)
Ltac by_evaluation := apply (bool_decide_unpack _); vm_compute; exact I.

(** ** Arithmetic of circular distances *)

Section Circular.

Lemma inner_test_spec j n : GameRules.inner_test j n = (2 * j <=? n - 1).
Proof.
  unfold GameRules.inner_test, Qle_bool, Qdiv, Qmult, Qinv, inject_Z; simpl.
  apply eq_true_iff_eq. rewrite !Z.leb_le. lia.
Qed.

Lemma inner_test_half j n : GameRules.inner_test j n = true <-> j <= (n - 1) / 2.
Proof. rewrite inner_test_spec, Z.leb_le. div_lia. Qed.

Lemma odd_of_nat n : Nat.odd n = true -> Z.odd (Z.of_nat n) = true.
Proof.
  rewrite Nat.odd_spec, Z.odd_spec. intros [k ->]. exists (Z.of_nat k). lia.
Qed.

(** [a % n] for a sum of two indices. *)
Lemma rem_wrap n a : 0 <= a < 2 * n ->
  Z.rem a n = if decide (a < n) then a else a - n.
Proof.
  intros Ha. rewrite Z.rem_mod_nonneg by lia.
  case_decide.
  - apply Z.mod_small; lia.
  - symmetry. apply (Z.mod_unique_pos _ _ 1); lia.
Qed.

(** The circular distance from [b] forward to [a]. *)
Lemma mod_diff n a b : 0 <= a < n -> 0 <= b < n ->
  (a - b) mod n = if decide (b <= a) then a - b else a - b + n.
Proof.
  intros Ha Hb. case_decide.
  - apply Z.mod_small; lia.
  - symmetry. apply (Z.mod_unique_pos _ _ (-1)); lia.
Qed.

End Circular.

(** ** Properties of [rule] *)

Section Rule.

Lemma rule_diag n i : rule n i i = Draw.
Proof.
  unfold rule. rewrite Z.sub_diag, Zmod_0_l.
  rewrite decide_False by lia. by rewrite decide_False by lia.
Qed.

(** [Win] one way round is [Lose] the other way round, for a matrix of
    any side. *)
Lemma rule_antisym n i j :
  0 <= i < n -> 0 <= j < n -> rule n i j = Win <-> rule n j i = Lose.
Proof.
  intros Hi Hj. unfold rule. rewrite !mod_diff by lia.
  repeat case_decide; split; intros; try done; lia.
Qed.

(** The cells that keep their initial ['Draw']: the diagonal, and the
    cell half-way round when there is one. *)
Lemma rule_draw n i j :
  0 <= i < n -> 0 <= j < n ->
  rule n i j = Draw <-> i = j \/ 2 * ((j - i) mod n) = n.
Proof.
  intros Hi Hj. unfold rule. rewrite !mod_diff by lia.
  repeat case_decide; split; intros; try done; lia.
Qed.

(** The rule in the words of the specification, on the circular distance
    [d = (j - i) mod n]. *)
Lemma rule_distance n i j :
  0 <= i < n -> 0 <= j < n -> Z.odd n = true ->
  let d := (j - i) mod n in
  (d = 0 -> rule n i j = Draw)
  /\ (1 <= d <= (n - 1) / 2 -> rule n i j = Win)
  /\ ((n + 1) / 2 <= d <= n - 1 -> rule n i j = Lose).
Proof.
  intros Hi Hj Hodd d. subst d. unfold rule.
  apply Z.odd_spec in Hodd as [k ->].
  rewrite !mod_diff by lia.
  repeat split; intros; repeat case_decide; try done; div_lia.
Qed.

End Rule.

(** ** The rules matrix, cell by cell *)

Section Matrix.
Import GameRules.

Lemma square_fresh n : square n (fresh_matrix n).
Proof.
  split; [apply length_replicate|].
  apply Forall_replicate, length_replicate.
Qed.

Lemma cell_fresh n r c :
  (r < n)%nat -> (c < n)%nat -> cell (fresh_matrix n) r c = Some Draw.
Proof.
  intros Hr Hc. unfold cell, fresh_matrix.
  rewrite lookup_replicate_2 by done. simpl.
  by rewrite lookup_replicate_2.
Qed.

Lemma square_set_cell n m i c v : square n m -> square n (set_cell m i c v).
Proof.
  intros [Hlen Hrows]. split.
  - unfold set_cell. by rewrite length_alter.
  - apply Forall_alter; [done|]. intros row _ Hrow. by rewrite length_insert.
Qed.

Lemma square_cell n m r c :
  square n m -> (r < n)%nat -> (c < n)%nat -> is_Some (cell m r c).
Proof.
  intros [Hlen Hrows] Hr Hc. unfold cell.
  destruct (lookup_lt_is_Some_2 m r) as [row Hrow]; [lia|].
  rewrite Hrow; simpl. apply lookup_lt_is_Some_2.
  rewrite Forall_lookup in Hrows. rewrite (Hrows _ _ Hrow). done.
Qed.

(** A write inside the matrix changes the cell written and no other. *)
Lemma cell_set_cell n m i c v r k :
  square n m -> 0 <= i < Z.of_nat n -> 0 <= c < Z.of_nat n ->
  cell (set_cell m i c v) r k =
    if decide (Z.of_nat r = i /\ Z.of_nat k = c) then Some v else cell m r k.
Proof.
  intros [Hlen Hrows] Hi Hc. unfold cell, set_cell.
  rewrite list_lookup_alter.
  destruct (decide (Z.to_nat i = r)) as [<-|Hne].
  - destruct (lookup_lt_is_Some_2 m (Z.to_nat i)) as [row Hrow]; [lia|].
    rewrite Hrow; simpl.
    rewrite Forall_lookup in Hrows. specialize (Hrows _ _ Hrow).
    destruct (decide (Z.to_nat c = k)) as [<-|Hk].
    + rewrite list_lookup_insert_eq by lia.
      rewrite decide_True; [done|lia].
    + rewrite list_lookup_insert_ne by done.
      rewrite decide_False; [done|lia].
  - rewrite decide_False; [done|lia].
Qed.

Lemma square_inner_loop n fuel N i j m :
  square n m -> square n (inner_loop fuel N i j m).
Proof.
  revert j m. induction fuel as [|fuel IH]; intros j m Hm; simpl; [done|].
  destruct (inner_test j N); [|done].
  by apply IH, square_set_cell, square_set_cell.
Qed.

(** Every index the loop body writes at is inside the matrix. *)
Lemma writes_in_range n i j :
  0 <= i < n -> 1 <= j -> 2 * j <= n - 1 ->
  0 <= Z.rem (i + j) n < n /\ 0 <= Z.rem (i - j + n) n < n.
Proof.
  intros Hi Hj Hjn. rewrite !rem_wrap by lia.
  repeat case_decide; lia.
Qed.

(** What the inner loop, entered at [j] with enough fuel to reach
    [(n - 1) / 2], leaves in the matrix: on row [i], the cells at forward
    distance [j..(n-1)/2] hold [Win], those at backward distance
    [j..(n-1)/2] hold [Lose]; everything else is untouched. *)
Lemma cell_inner_loop (n : nat) (i : Z) fuel : forall j m (r k : nat),
  0 <= i < Z.of_nat n -> 1 <= j -> Z.of_nat n <= 2 * (j + Z.of_nat fuel) ->
  square n m -> (r < n)%nat -> (k < n)%nat ->
  cell (inner_loop fuel (Z.of_nat n) i j m) r k =
    if decide (Z.of_nat r = i /\ j <= (Z.of_nat k - i) mod Z.of_nat n
               /\ 2 * ((Z.of_nat k - i) mod Z.of_nat n) <= Z.of_nat n - 1)
    then Some Win
    else if decide (Z.of_nat r = i /\ j <= (i - Z.of_nat k) mod Z.of_nat n
                    /\ 2 * ((i - Z.of_nat k) mod Z.of_nat n) <= Z.of_nat n - 1)
    then Some Lose
    else cell m r k.
Proof.
  induction fuel as [|fuel IH]; intros j m r k Hi Hj Hfuel Hm Hr Hk.
  - simpl. rewrite !mod_diff by lia.
    repeat case_decide; try done; lia.
  - simpl. rewrite inner_test_spec.
    destruct (Z.leb_spec (2 * j) (Z.of_nat n - 1)) as [Hle|Hgt].
    + destruct (writes_in_range (Z.of_nat n) i j) as [Hw Hl]; [lia..|].
      rewrite IH; [|lia..| by apply square_set_cell, square_set_cell |done|done].
      rewrite (cell_set_cell n), (cell_set_cell n);
        [|done..| by apply square_set_cell |done|done].
      rewrite !rem_wrap by lia. rewrite !mod_diff by lia.
      repeat case_decide; try done; lia.
    + rewrite !mod_diff by lia.
      repeat case_decide; try done; lia.
Qed.

(** The loops stop at their tests: fuel beyond the number of rounds
    changes nothing. *)
Lemma inner_loop_fuel n i fuel : forall extra j m,
  n - 1 < 2 * (j + Z.of_nat fuel) ->
  inner_loop (fuel + extra) n i j m = inner_loop fuel n i j m.
Proof.
  induction fuel as [|fuel IH]; intros extra j m Hfuel; simpl.
  - destruct extra; simpl; [done|].
    rewrite inner_test_spec.
    destruct (Z.leb_spec (2 * j) (n - 1)); [lia|done].
  - destruct (inner_test j n); [|done]. apply IH. lia.
Qed.

Lemma outer_loop_fuel n inner fuel : forall extra i m,
  n - i <= Z.of_nat fuel ->
  outer_loop (fuel + extra) inner n i m = outer_loop fuel inner n i m.
Proof.
  induction fuel as [|fuel IH]; intros extra i m Hfuel; simpl.
  - destruct extra; simpl; [done|].
    destruct (Z.ltb_spec i n); [lia|done].
  - destruct (i <? n); [|done]. apply IH. lia.
Qed.

Lemma outer_loop_inner_fuel n inner extra fuel : forall i m,
  n - 1 < 2 * (1 + Z.of_nat inner) ->
  outer_loop fuel (inner + extra) n i m = outer_loop fuel inner n i m.
Proof.
  induction fuel as [|fuel IH]; intros i m Hinner; simpl; [done|].
  destruct (i <? n); [|done].
  rewrite inner_loop_fuel by done. by apply IH.
Qed.

Lemma generateRulesMatrix_fuel moves fuel inner :
  (length moves < fuel)%nat -> (length moves < inner)%nat ->
  outer_loop fuel inner (Z.of_nat (length moves)) 0
    (fresh_matrix (length moves)) = generateRulesMatrix moves.
Proof.
  intros Hf Hi. unfold generateRulesMatrix.
  replace fuel with (S (length moves) + (fuel - S (length moves)))%nat by lia.
  replace inner with (S (length moves) + (inner - S (length moves)))%nat by lia.
  rewrite outer_loop_fuel by lia.
  apply outer_loop_inner_fuel. lia.
Qed.

Lemma square_outer_loop n fuel inner N : forall i m,
  square n m -> square n (outer_loop fuel inner N i m).
Proof.
  induction fuel as [|fuel IH]; intros i m Hm; simpl; [done|].
  destruct (i <? N); [|done].
  by apply IH, square_inner_loop.
Qed.

Lemma cell_outer_loop (n : nat) inner fuel : forall i m (r k : nat),
  0 <= i -> Z.of_nat n - i <= Z.of_nat fuel -> (n <= 2 * inner)%nat ->
  square n m -> (r < n)%nat -> (k < n)%nat ->
  cell (outer_loop fuel inner (Z.of_nat n) i m) r k =
    if decide (i <= Z.of_nat r)
    then stamp (Z.of_nat n) (Z.of_nat r) (Z.of_nat k) (cell m r k)
    else cell m r k.
Proof.
  induction fuel as [|fuel IH]; intros i m r k Hi Hfuel Hinner Hm Hr Hk; simpl.
  - rewrite decide_False; [done|lia].
  - destruct (Z.ltb_spec i (Z.of_nat n)) as [Hlt|Hge].
    + rewrite IH; [|lia..| by apply square_inner_loop |done|done].
      rewrite cell_inner_loop by (done || lia).
      unfold stamp. rewrite !mod_diff by lia.
      repeat case_decide; try done; lia.
    + rewrite decide_False; [done|lia].
Qed.

Lemma square_generateRulesMatrix moves :
  square (length moves) (generateRulesMatrix moves).
Proof. apply square_outer_loop, square_fresh. Qed.

Lemma cell_generateRulesMatrix moves (r k : nat) :
  (r < length moves)%nat -> (k < length moves)%nat ->
  cell (generateRulesMatrix moves) r k
  = Some (rule (Z.of_nat (length moves)) (Z.of_nat r) (Z.of_nat k)).
Proof.
  intros Hr Hk. unfold generateRulesMatrix.
  rewrite cell_outer_loop; [|lia..| apply square_fresh |done|done].
  rewrite decide_True by lia.
  rewrite cell_fresh by done.
  unfold stamp, rule. by repeat case_decide.
Qed.

End Matrix.

(** ** Looking moves up *)

Section IndexOf.
Import GameRules.

Lemma indexOf_from_absent l x : forall k, x ∉ l -> indexOf_from l x k = -1.
Proof.
  induction l as [|y l IH]; intros k Hx; simpl; [done|].
  rewrite not_elem_of_cons in Hx. destruct Hx as [Hne Hx].
  rewrite decide_False by done. by apply IH.
Qed.

Lemma indexOf_from_present l x : forall k, x ∈ l ->
  exists p : nat, indexOf_from l x k = k + Z.of_nat p /\ l !! p = Some x
                  /\ forall q : nat, l !! q = Some x -> (p <= q)%nat.
Proof.
  induction l as [|y l IH]; intros k Hx; simpl.
  - by apply elem_of_nil in Hx.
  - destruct (decide (y = x)) as [->|Hne].
    + exists 0%nat. split; [lia|]. split; [done|]. intros; lia.
    + apply elem_of_cons in Hx. destruct Hx as [->|Hx]; [done|].
      destruct (IH (k + 1) Hx) as (p & Hp & Hlook & Hmin).
      exists (S p). split; [lia|]. split; [done|].
      intros [|q] Hq; simpl in Hq; [congruence|].
      specialize (Hmin _ Hq). lia.
Qed.

Lemma indexOf_absent l x : x ∉ l <-> indexOf l x = -1.
Proof.
  split.
  - apply indexOf_from_absent.
  - intros Hidx Hx.
    destruct (indexOf_from_present l x 0 Hx) as (p & Hp & _).
    unfold indexOf in Hidx. lia.
Qed.

Lemma indexOf_present l x : x ∈ l ->
  exists p : nat, indexOf l x = Z.of_nat p /\ l !! p = Some x
                  /\ forall q : nat, l !! q = Some x -> (p <= q)%nat.
Proof.
  intros Hx. destruct (indexOf_from_present l x 0 Hx) as (p & Hp & Hrest).
  exists p. split; [unfold indexOf; lia | done].
Qed.

(** In an array without repetitions, [indexOf] is the inverse of
    indexing. *)
Lemma indexOf_lookup l (p : nat) x :
  NoDup l -> l !! p = Some x -> indexOf l x = Z.of_nat p.
Proof.
  intros Hnd Hp.
  destruct (indexOf_present l x) as (q & Hq & Hlook & _).
  { by eapply list_elem_of_lookup_2. }
  rewrite Hq. f_equal. by eapply NoDup_lookup.
Qed.

(** [determineResult] on two configured moves reads the cell at their
    indices. *)
Lemma determineResult_present moves a b (i j : nat) :
  indexOf moves a = Z.of_nat i -> indexOf moves b = Z.of_nat j ->
  (i < length moves)%nat -> (j < length moves)%nat ->
  determineResult (new moves) a b
  = Normal (rule (Z.of_nat (length moves)) (Z.of_nat i) (Z.of_nat j)).
Proof.
  intros Ha Hb Hi Hj. unfold determineResult; simpl.
  rewrite Ha, Hb.
  destruct (Z.eqb_spec (Z.of_nat i) (-1)); [lia|].
  destruct (Z.eqb_spec (Z.of_nat j) (-1)); [lia|]. simpl.
  rewrite !Nat2Z.id.
  pose proof (cell_generateRulesMatrix moves i j Hi Hj) as Hcell.
  unfold cell in Hcell.
  destruct (generateRulesMatrix moves !! i) as [row|]; simpl in Hcell; [|done].
  by rewrite Hcell.
Qed.

(** [Win] for one player is [Lose] for the other, whatever the list. *)
Lemma determineResult_antisym moves a b :
  a ∈ moves -> b ∈ moves ->
  determineResult (new moves) a b = Normal Win
  <-> determineResult (new moves) b a = Normal Lose.
Proof.
  intros Ha Hb.
  destruct (indexOf_present moves a Ha) as (i & Hi & Hlooki & _).
  destruct (indexOf_present moves b Hb) as (j & Hj & Hlookj & _).
  apply lookup_lt_Some in Hlooki, Hlookj.
  rewrite (determineResult_present moves a b i j) by done.
  rewrite (determineResult_present moves b a j i) by done.
  split; intros [= H]; f_equal; apply rule_antisym in H; (done || lia).
Qed.

Lemma determineResult_absent moves a b :
  a ∉ moves \/ b ∉ moves ->
  determineResult (new moves) a b = Throw invalid_move_message.
Proof.
  intros Hab. unfold determineResult; simpl.
  destruct Hab as [H|H]; apply indexOf_absent in H; rewrite H.
  - done.
  - by rewrite orb_true_r.
Qed.

End IndexOf.

(** ** Argument validation *)

Section Validation.

(** Adding an entry to a [Set] counts only when the entry is new. *)
Lemma Set_size_cons x (l : list string) :
  Set_size (x :: l) = if decide (x ∈ l) then Set_size l else S (Set_size l).
Proof.
  unfold Set_size. rewrite list_to_set_cons. case_decide as Hx.
  - f_equal. apply subseteq_union_1_L, singleton_subseteq_l.
    by apply elem_of_list_to_set.
  - rewrite size_union, size_singleton; [done|].
    apply disjoint_singleton_l. by rewrite elem_of_list_to_set.
Qed.

Lemma Set_size_le (l : list string) : (Set_size l <= length l)%nat.
Proof.
  induction l as [|x l IH]; [done|].
  rewrite Set_size_cons, length_cons. case_decide; lia.
Qed.

Lemma Set_size_NoDup (l : list string) : Set_size l = length l <-> NoDup l.
Proof.
  induction l as [|x l IH]; [by split; [constructor|]|].
  rewrite Set_size_cons, length_cons, NoDup_cons, <- IH.
  pose proof (Set_size_le l) as Hle. case_decide as Hx; split.
  - intros Heq. lia.
  - intros [Hnotin _]. done.
  - intros Heq. split; [done|lia].
  - intros [_ Heq]. lia.
Qed.

Lemma validateArguments_valid args :
  validateArguments args = Running tt <-> valid_moves args.
Proof.
  unfold validateArguments, valid_moves.
  rewrite <- Set_size_NoDup.
  rewrite Z.rem_mod_nonneg by lia.
  destruct (Z.ltb_spec (Z.of_nat (length args)) 3) as [Hlt|Hge]; simpl.
  { split; [done|]. intros [? _]. lia. }
  rewrite Nat.odd_spec.
  destruct (Z.eqb_spec (Z.of_nat (length args) mod 2) 0) as [Heven|Hodd]; simpl.
  { split; [done|]. intros (_ & [k Hk] & _). div_lia. }
  destruct (Z.eqb_spec (Z.of_nat (Set_size args)) (Z.of_nat (length args)))
    as [Heq|Hne]; simpl.
  - split; [|done]. intros _. split; [lia|]. split; [|lia].
    exists (Z.to_nat (Z.of_nat (length args) / 2)). div_lia.
  - split; [done|]. intros (_ & _ & Heq). lia.
Qed.

Lemma validateArguments_invalid args :
  validateArguments args = Exited 1 usage <-> ~ valid_moves args.
Proof.
  rewrite <- validateArguments_valid. unfold validateArguments.
  destruct (_ || _); split; congruence.
Qed.

End Validation.

(** ** Counting the cells of a row *)

Section Counting.
Import GameRules.

Lemma count_app o l1 l2 : count o (l1 ++ l2) = (count o l1 + count o l2)%nat.
Proof. unfold count. by rewrite filter_app, length_app. Qed.

Lemma count_cons o x l :
  count o (x :: l) = ((if decide (x = o) then 1 else 0) + count o l)%nat.
Proof. unfold count. rewrite filter_cons. by case_decide. Qed.

Lemma count_replicate o x h :
  count o (replicate h x) = if decide (x = o) then h else 0%nat.
Proof.
  induction h as [|h IH]; simpl.
  - by case_decide.
  - rewrite count_cons, IH. by case_decide.
Qed.

Lemma count_Permutation o l1 l2 : l1 ≡ₚ l2 -> count o l1 = count o l2.
Proof. intros Hperm. unfold count. by rewrite Hperm. Qed.

(** Two arrays whose entries satisfy [P] and [Q] at the same indices have
    as many [P]-entries as [Q]-entries. *)
Lemma length_filter_pointwise {A B} (P : A -> Prop) (Q : B -> Prop)
    `{forall x, Decision (P x)} `{forall y, Decision (Q y)} (l : list A) :
  forall k : list B, length l = length k ->
  (forall (i : nat) x y, l !! i = Some x -> k !! i = Some y -> P x <-> Q y) ->
  length (filter P l) = length (filter Q k).
Proof.
  induction l as [|x l IH]; intros [|y k] Hlen Hpq; try done.
  rewrite !filter_cons.
  assert (length (filter P l) = length (filter Q k)) as Htl.
  { apply IH; [simpl in Hlen; lia|].
    intros i x' y' Hx' Hy'. by apply (Hpq (S i)). }
  pose proof (Hpq 0%nat x y eq_refl eq_refl) as Hhd.
  repeat case_decide; simpl; try tauto; by rewrite Htl.
Qed.

Lemma count_balanced_row h :
  count Win (balanced_row h) = h /\ count Lose (balanced_row h) = h
  /\ count Draw (balanced_row h) = 1%nat.
Proof.
  unfold balanced_row.
  rewrite !count_cons, !count_app, !count_replicate.
  repeat case_decide; try done; lia.
Qed.

(** A row of the finished matrix lists [rule] along its columns. *)
Lemma row_generateRulesMatrix moves (i : nat) row :
  generateRulesMatrix moves !! i = Some row ->
  row = (fun k : nat => rule (Z.of_nat (length moves)) (Z.of_nat i) (Z.of_nat k))
          <$> seq 0 (length moves).
Proof.
  intros Hrow.
  destruct (square_generateRulesMatrix moves) as [Hlen Hrows].
  assert (i < length moves)%nat as Hi.
  { rewrite <- Hlen. by eapply lookup_lt_Some. }
  rewrite Forall_lookup in Hrows. specialize (Hrows _ _ Hrow).
  apply (list_eq_same_length _ _ (length moves)); [|done|].
  { by rewrite length_fmap, length_seq. }
  intros k x y Hk Hx Hy.
  pose proof (cell_generateRulesMatrix moves i k Hi Hk) as Hcell.
  unfold cell in Hcell. rewrite Hrow in Hcell. simpl in Hcell.
  rewrite list_lookup_fmap, lookup_seq_lt in Hy by done.
  simpl in Hy. congruence.
Qed.

(** Row [i] is row [0] read from column [i] onwards, wrapping round. *)
Lemma rule_rotate (n i : nat) :
  (i < n)%nat ->
  (fun k : nat => rule (Z.of_nat n) (Z.of_nat i) (Z.of_nat k)) <$> seq 0 n
  ≡ₚ (fun d : nat => rule (Z.of_nat n) 0 (Z.of_nat d)) <$> seq 0 n.
Proof.
  intros Hi.
  set (f := fun k : nat => rule (Z.of_nat n) (Z.of_nat i) (Z.of_nat k)).
  set (g := fun d : nat => rule (Z.of_nat n) 0 (Z.of_nat d)).
  assert (f <$> seq 0 i = g <$> seq (n - i) i) as Hlow.
  { rewrite <- (Nat.add_0_r (n - i)), <- fmap_add_seq, <- list_fmap_compose.
    apply list_fmap_ext. intros q x Hx.
    apply lookup_seq in Hx as [-> Hq]. unfold f, g, rule; simpl.
    rewrite !mod_diff by lia. repeat case_decide; try done; lia. }
  assert (f <$> seq i (n - i) = g <$> seq 0 (n - i)) as Hhigh.
  { rewrite <- (Nat.add_0_r i) at 1.
    rewrite <- fmap_add_seq, <- list_fmap_compose.
    apply list_fmap_ext. intros q x Hx.
    apply lookup_seq in Hx as [-> Hq]. unfold f, g, rule; simpl.
    rewrite !mod_diff by lia. repeat case_decide; try done; lia. }
  assert (seq 0 n = seq 0 i ++ seq i (n - i)) as Hsplit.
  { replace n with (i + (n - i))%nat at 1 by lia. by rewrite seq_app. }
  assert (seq 0 n = seq 0 (n - i) ++ seq (n - i) i) as Hsplit'.
  { replace n with ((n - i) + i)%nat at 1 by lia. by rewrite seq_app. }
  rewrite Hsplit at 1. rewrite Hsplit'. rewrite !fmap_app.
  rewrite Hlow, Hhigh. apply Permutation_app_comm.
Qed.

(** Row [0] of a matrix of side [2h + 1]. *)
Lemma rule_row_0 (h : nat) :
  (fun d : nat => rule (Z.of_nat (S (h + h))) 0 (Z.of_nat d)) <$> seq 0 (S (h + h))
  = balanced_row h.
Proof.
  unfold balanced_row. cbn [seq].
  rewrite seq_app, !fmap_cons, !fmap_app.
  rewrite (const_fmap _ (seq 1 h) Win), (const_fmap _ (seq (1 + h) h) Lose).
  - rewrite !length_seq. f_equal.
  - intros q x Hx. apply lookup_seq in Hx as [-> Hq]. unfold rule.
    rewrite !mod_diff by lia. repeat case_decide; try done; lia.
  - intros q x Hx. apply lookup_seq in Hx as [-> Hq]. unfold rule.
    rewrite !mod_diff by lia. repeat case_decide; try done; lia.
Qed.

End Counting.

(** ** The commitment: digests and their hexadecimal form *)

Section Commitment.

Example round_constants :
  SHA256.K !! 0%nat = Some 0x428a2f98 /\ SHA256.K !! 63%nat = Some 0xc67178f2
  /\ length SHA256.K = 64%nat.
Proof. by vm_compute. Qed.

Example initial_hash :
  SHA256.wa SHA256.H0 = 0x6a09e667 /\ SHA256.wh SHA256.H0 = 0x5be0cd19.
Proof. by vm_compute. Qed.

Example sha256_abc :
  crypto.hex (SHA256.sha256 (crypto.utf8 "abc"))
  = "ba7816bf8f01cfea414140de5dae2223b00361a396177a9cb410ff61f20015ad"%string.
Proof. by vm_compute. Qed.

(** A message whose padding spills into a second block. *)
Example sha256_two_blocks :
  crypto.hex (SHA256.sha256 (replicate 119 "a"%byte))
  = "31eba51c313a5c08226adf18d4a359cfdfd8d2e816b13f4af952f7ea6584dcfb"%string.
Proof. by vm_compute. Qed.

(** RFC 4231, test case 2. *)
Example hmac_rfc4231_2 :
  HMACCalculator.calculateHMAC (crypto.utf8 "Jefe") "what do ya want for nothing?"
  = "5bdcc146bf60754e6a042426089575c75a003f089d2739839dec58b964ec3843"%string.
Proof. by vm_compute. Qed.

(** RFC 4231, test case 6: a key longer than a block is hashed first. *)
Example hmac_rfc4231_6 :
  HMACCalculator.calculateHMAC (replicate 131 xaa)
    "Test Using Larger Than Block-Size Key - Hash Key First"
  = "60e431591ee0b67f0d8a26aacbf5b77f8e0bc6213728c5140546040f0ee37f54"%string.
Proof. by vm_compute. Qed.

(** A key of 32 bytes, as [generateKey] draws them, and a move. *)
Example hmac_rock :
  HMACCalculator.calculateHMAC (SHA256.byte_of_Z <$> (Z.of_nat <$> seq 0 32)) "rock"
  = "d43d1b772ce0b2599ac738ed377f40d7e0360dadc6a1514d5de251f8b285a393"%string.
Proof. by vm_compute. Qed.

Lemma length_be_bytes count x : length (SHA256.be_bytes count x) = count.
Proof. induction count as [|count IH]; simpl; [done | by rewrite IH]. Qed.

Lemma length_word_bytes w : length (SHA256.word_bytes w) = 4%nat.
Proof. unfold SHA256.word_bytes. by rewrite length_fmap, length_be_bytes. Qed.

Lemma length_digest h : length (SHA256.digest h) = 32%nat.
Proof.
  unfold SHA256.digest. by rewrite !length_app, !length_word_bytes.
Qed.

(** A SHA-256 digest is 32 bytes, whatever was hashed. *)
Lemma length_sha256 msg : length (SHA256.sha256 msg) = 32%nat.
Proof. apply length_digest. Qed.

Lemma length_hmac_sha256 key msg : length (crypto.hmac_sha256 key msg) = 32%nat.
Proof. apply length_sha256. Qed.

Lemma hex_digit_lower (n : N) : is_lower_hex (crypto.hex_digit n).
Proof.
  unfold is_lower_hex, crypto.hex_digit.
  destruct (nth_in_or_default (N.to_nat n) crypto.hex_digits "0"%char) as [Hin| ->].
  - by apply list_elem_of_In.
  - by_evaluation.
Qed.

Lemma length_hex bytes : String.length (crypto.hex bytes) = (2 * length bytes)%nat.
Proof. induction bytes as [|b bytes IH]; simpl; [done | rewrite IH; lia]. Qed.

Lemma hex_lower bytes :
  Forall is_lower_hex (list_ascii_of_string (crypto.hex bytes)).
Proof.
  induction bytes as [|b bytes IH]; simpl; [constructor|].
  constructor; [apply hex_digit_lower|].
  constructor; [apply hex_digit_lower | exact IH].
Qed.

Lemma verify_spec key move commitment :
  verify key move commitment = true
  <-> commitment = HMACCalculator.calculateHMAC key move.
Proof. unfold verify. rewrite String.eqb_eq. split; congruence. Qed.

(** C6 (commitment round-trip): for every key, of 32 bytes or of any other
    length, and every move, [verify(k, m, commit(k, m))] is [true]. *)
Theorem C6_commitment_round_trip (key : list byte) (move : string) :
  verify key move (HMACCalculator.calculateHMAC key move) = true.
Proof. by apply verify_spec. Qed.

(** C9: for every key and every move, [calculateHMAC(key, move)] is a string
    of exactly 64 characters, each a lowercase hexadecimal digit. *)
Theorem C9_commitment_is_64_lowercase_hex (key : list byte) (move : string) :
  String.length (HMACCalculator.calculateHMAC key move) = 64%nat
  /\ Forall is_lower_hex
       (list_ascii_of_string (HMACCalculator.calculateHMAC key move)).
Proof.
  unfold HMACCalculator.calculateHMAC, crypto.digest_hex. split.
  - by rewrite length_hex, length_hmac_sha256.
  - apply hex_lower.
Qed.

End Commitment.

(** ** The specification's statements about the rules matrix *)

Section Claims.
Import GameRules.

Lemma valid_moves_index moves (i : nat) a :
  valid_moves moves -> moves !! i = Some a ->
  indexOf moves a = Z.of_nat i /\ (i < length moves)%nat.
Proof.
  intros (_ & _ & Hnd) Hi. split.
  - by apply indexOf_lookup.
  - by eapply lookup_lt_Some.
Qed.

(** C1 (what the code does on the scenario): with the moves
    [rock, paper, scissors], [determineResult("rock", "scissors")] is
    ['Lose'], [determineResult("rock", "paper")] is ['Win'] and
    [determineResult("rock", "rock")] is ['Draw']; the help table, whose rows
    are the computer's moves and whose columns are the user's, has ['Win']
    for the user's rock against the computer's scissors. *)
Theorem C1_rock_paper_scissors_code :
  determineResult (new rps) "rock" "scissors" = Normal Lose
  /\ determineResult (new rps) "rock" "paper" = Normal Win
  /\ determineResult (new rps) "rock" "rock" = Normal Draw
  /\ help_header (new rps) = ["v PC\User >"; "rock"; "paper"; "scissors"]%string
  /\ help_rows (new rps)
     = [ ("rock", [Draw; Win; Lose]); ("paper", [Lose; Draw; Win]);
         ("scissors", [Win; Lose; Draw]) ]%string.
Proof. by vm_compute. Qed.

(** C2: for a list of [n >= 3] distinct moves, [n] odd, and moves [a] at
    index [i] and [b] at index [j], with [d = (j - i) mod n]:
    [determineResult(a, b)] is ['Draw'] when [d = 0], ['Win'] when
    [1 <= d <= (n-1)/2] and ['Lose'] when [(n+1)/2 <= d <= n-1]. *)
Theorem C2_circular_distance moves (i j : nat) a b :
  valid_moves moves -> moves !! i = Some a -> moves !! j = Some b ->
  let n := Z.of_nat (length moves) in
  let d := (Z.of_nat j - Z.of_nat i) mod n in
  (d = 0 -> determineResult (new moves) a b = Normal Draw)
  /\ (1 <= d <= (n - 1) / 2 -> determineResult (new moves) a b = Normal Win)
  /\ ((n + 1) / 2 <= d <= n - 1 ->
      determineResult (new moves) a b = Normal Lose).
Proof.
  intros Hvalid Hi Hj n d.
  destruct (valid_moves_index moves i a Hvalid Hi) as [Hia Hlti].
  destruct (valid_moves_index moves j b Hvalid Hj) as [Hjb Hltj].
  rewrite (determineResult_present moves a b i j) by done.
  destruct Hvalid as (_ & Hodd & _).
  destruct (rule_distance n (Z.of_nat i) (Z.of_nat j)) as (H0 & Hw & Hl);
    [subst n; lia..| |].
  { subst n. by apply odd_of_nat. }
  repeat split; intros Hd; f_equal; auto.
Qed.

Lemma C2_witness :
  determineResult (new rps) "paper" "scissors" = Normal Win.
Proof.
  refine (proj1 (proj2 (C2_circular_distance rps 1 2 "paper" "scissors" _ _ _)) _).
  - by_evaluation.
  - reflexivity.
  - reflexivity.
  - vm_compute. split; discriminate.
Defined.

(** C3 (antisymmetry): for a list of [n >= 3] distinct moves, [n] odd, and
    configured moves [a] and [b], [determineResult(a, b)] is ['Win'] if and
    only if [determineResult(b, a)] is ['Lose']. *)
Theorem C3_antisymmetry moves a b :
  valid_moves moves -> a ∈ moves -> b ∈ moves ->
  determineResult (new moves) a b = Normal Win
  <-> determineResult (new moves) b a = Normal Lose.
Proof. intros _. apply determineResult_antisym. Qed.

Lemma C3_witness :
  determineResult (new rps) "rock" "paper" = Normal Win
  <-> determineResult (new rps) "paper" "rock" = Normal Lose.
Proof. apply (C3_antisymmetry rps "rock" "paper"); by_evaluation. Defined.

(** C5 (reflexive draw): for a list of [n >= 3] distinct moves, [n] odd,
    and a configured move [a], [determineResult(a, a)] is ['Draw']. *)
Theorem C5_reflexive_draw moves a :
  valid_moves moves -> a ∈ moves ->
  determineResult (new moves) a a = Normal Draw.
Proof.
  intros _ Ha.
  destruct (indexOf_present moves a Ha) as (i & Hi & Hlooki & _).
  apply lookup_lt_Some in Hlooki.
  rewrite (determineResult_present moves a a i i) by done.
  by rewrite rule_diag.
Qed.

Lemma C5_witness : determineResult (new rps) "scissors" "scissors" = Normal Draw.
Proof. apply (C5_reflexive_draw rps "scissors"); by_evaluation. Defined.

(** C4 (row and column balance): for a list of [n >= 3] distinct moves, [n]
    odd, each row of the matrix holds exactly [(n-1)/2] ['Win'], exactly
    [(n-1)/2] ['Lose'] and exactly one ['Draw'], which is on the diagonal;
    each move wins against exactly [(n-1)/2] moves and loses to exactly
    [(n-1)/2] moves; and exactly [(n-1)/2] moves win against it and exactly
    [(n-1)/2] lose to it (the columns). *)
Theorem C4_row_balance moves :
  valid_moves moves ->
  let h := ((length moves - 1) / 2)%nat in
  (forall (i : nat) row, generateRulesMatrix moves !! i = Some row ->
     count Win row = h /\ count Lose row = h /\ count Draw row = 1%nat
     /\ row !! i = Some Draw)
  /\ (forall a, a ∈ moves ->
       length (filter (fun b => determineResult (new moves) a b = Normal Win)
                 moves) = h
       /\ length (filter (fun b => determineResult (new moves) a b = Normal Lose)
                    moves) = h)
  /\ (forall b, b ∈ moves ->
       length (filter (fun a => determineResult (new moves) a b = Normal Win)
                 moves) = h
       /\ length (filter (fun a => determineResult (new moves) a b = Normal Lose)
                    moves) = h).
Proof.
  intros Hvalid h.
  assert (length moves = S (h + h)) as Hn.
  { destruct Hvalid as (_ & Hodd & _).
    apply Nat.odd_spec in Hodd as [k Hk]. subst h. rewrite Hk.
    replace (2 * k + 1 - 1)%nat with (k * 2)%nat by lia.
    rewrite Nat.div_mul by done. lia. }
  assert (forall (i : nat) row, generateRulesMatrix moves !! i = Some row ->
            (i < length moves)%nat /\ row ≡ₚ balanced_row h
            /\ forall k : nat, (k < length moves)%nat ->
                 row !! k = Some (rule (Z.of_nat (length moves))
                                    (Z.of_nat i) (Z.of_nat k))) as Hrow.
  { intros i row Hrow.
    assert (i < length moves)%nat as Hi.
    { rewrite <- (proj1 (square_generateRulesMatrix moves)).
      by eapply lookup_lt_Some. }
    split; [done|].
    rewrite (row_generateRulesMatrix moves i row Hrow). split.
    - rewrite rule_rotate by done. by rewrite Hn, rule_row_0.
    - intros k Hk. by rewrite list_lookup_fmap, lookup_seq_lt. }
  destruct (count_balanced_row h) as (Hw & Hl & Hd).
  assert (forall a, a ∈ moves ->
            forall o, length (filter (fun b => determineResult (new moves) a b
                                              = Normal o) moves)
                      = count o (balanced_row h)) as Hmove.
  { intros a Ha o.
    destruct (indexOf_present moves a Ha) as (i & Hia & Hlooki & _).
    pose proof (lookup_lt_Some _ _ _ Hlooki) as Hi.
    destruct (lookup_lt_is_Some_2 (generateRulesMatrix moves) i) as [row Hr].
    { by rewrite (proj1 (square_generateRulesMatrix moves)). }
    destruct (Hrow i row Hr) as (_ & Hperm & Hcells).
    rewrite <- (count_Permutation _ _ _ Hperm).
    apply length_filter_pointwise.
    - rewrite (Permutation_length Hperm), Hn. unfold balanced_row.
      by rewrite length_cons, length_app, !length_replicate.
    - intros j b y Hb Hy.
      destruct (valid_moves_index moves j b Hvalid Hb) as [Hjb Hj].
      rewrite Hcells in Hy by done.
      rewrite (determineResult_present moves a b i j) by done.
      split; congruence. }
  split; [|split].
  - intros i row Hi. destruct (Hrow i row Hi) as (Hlt & Hperm & Hcells).
    rewrite !(count_Permutation _ _ _ Hperm).
    repeat split; try done.
    rewrite Hcells by done. by rewrite rule_diag.
  - intros a Ha. by rewrite !(Hmove a Ha).
  - intros b Hb. rewrite <- Hl at 1. rewrite <- Hw at 2.
    rewrite <- !(Hmove b Hb). split.
    + apply length_filter_pointwise; [done|].
      intros j a a' Ha Ha'. assert (a' = a) as -> by congruence.
      apply determineResult_antisym; [|done]. by eapply list_elem_of_lookup_2.
    + apply length_filter_pointwise; [done|].
      intros j a a' Ha Ha'. assert (a' = a) as -> by congruence.
      symmetry. apply determineResult_antisym; [done|].
      by eapply list_elem_of_lookup_2.
Qed.

Lemma C4_witness :
  length (filter (fun b => determineResult (new rps) "paper" b = Normal Win) rps)
  = 1%nat
  /\ length (filter (fun b => determineResult (new rps) "paper" b = Normal Lose)
               rps) = 1%nat.
Proof.
  refine (proj1 (proj2 (C4_row_balance rps _)) "paper"%string _); by_evaluation.
Defined.

(** C7 (refuted as stated): the constructor accepts a list of two moves,
    a list of four moves and a list with a repeated move, and the relation
    it builds from each resolves pairs of moves. *)
Lemma C7_constructor_accepts_invalid_lists :
  (~ valid_moves ["rock"; "paper"]
   /\ determineResult (new ["rock"; "paper"]) "rock" "paper" = Normal Draw)
  /\ (~ valid_moves ["rock"; "paper"; "scissors"; "lizard"]
      /\ determineResult (new ["rock"; "paper"; "scissors"; "lizard"])
           "rock" "paper" = Normal Win)
  /\ (~ valid_moves ["rock"; "paper"; "rock"]
      /\ determineResult (new ["rock"; "paper"; "rock"]) "rock" "paper"
         = Normal Win).
Proof. repeat split; (by_evaluation || by vm_compute). Qed.

Lemma main_invalid args : main args = Exited 1 usage <-> ~ valid_moves args.
Proof.
  rewrite <- validateArguments_invalid. unfold main.
  destruct (validateArguments args) as [[]|code err]; simpl; split; congruence.
Qed.

Lemma main_valid args :
  main args = Running (RockPaperScissorsGame.new args) <-> valid_moves args.
Proof.
  rewrite <- validateArguments_valid. unfold main.
  destruct (validateArguments args) as [[]|code err]; simpl; split; congruence.
Qed.

(** C7 (as amended): the script ends with exit status 1, before any
    relation is constructed, exactly when the list of moves has fewer than
    three entries, an even number of entries or a repeated entry, and
    otherwise goes on to construct the game; the constructor itself checks
    nothing and builds a square table from whatever list it is given. *)
Theorem C7_validation_precedes_construction args :
  (main args = Exited 1 usage
   <-> (length args < 3)%nat \/ Nat.even (length args) = true \/ ~ NoDup args)
  /\ (main args = Running (RockPaperScissorsGame.new args) <-> valid_moves args)
  /\ moves (new args) = args
  /\ square (length args) (rulesMatrix (new args)).
Proof.
  split; [|split; [apply main_valid | split; [done|]]].
  - rewrite main_invalid. unfold valid_moves.
    rewrite <- Nat.negb_even. split.
    + intros H.
      destruct (decide (length args < 3)%nat); [by left|].
      destruct (Nat.even (length args)); [right; by left|].
      right; right. intros Hnd. apply H. repeat split; (lia || done).
    + intros [H|[H|H]] (Hlen & Hodd & Hnd); [lia | | done].
      rewrite H in Hodd. done.
  - apply square_generateRulesMatrix.
Qed.

Example four_moves_matrix :
  generateRulesMatrix ["rock"; "paper"; "scissors"; "lizard"]%string
  = [ [Draw; Win; Draw; Lose]; [Lose; Draw; Win; Draw];
      [Draw; Lose; Draw; Win]; [Win; Draw; Lose; Draw] ].
Proof. by vm_compute. Qed.

(** C10: the constructor builds an [n]-by-[n] table from a list of any
    length [n]; when [n] is even and at least 2, the cell of every row [i]
    in column [(i + n/2) mod n] is off the diagonal and holds ['Draw'], so
    that (without repeated moves) the two moves resolve to ['Draw']; and a
    non-empty table has a ['Draw'] off its diagonal exactly when [n] is
    even. *)
Theorem C10_even_length_draws moves :
  square (length moves) (generateRulesMatrix moves)
  /\ (Nat.even (length moves) = true -> (2 <= length moves)%nat ->
      forall i : nat, (i < length moves)%nat ->
        let c := ((i + length moves / 2) mod length moves)%nat in
        (c < length moves)%nat /\ c <> i
        /\ cell (generateRulesMatrix moves) i c = Some Draw
        /\ (NoDup moves -> forall a b,
              moves !! i = Some a -> moves !! c = Some b ->
              determineResult (new moves) a b = Normal Draw))
  /\ (moves <> [] ->
      (exists i c : nat, (i < length moves)%nat /\ (c < length moves)%nat
                         /\ i <> c
                         /\ cell (generateRulesMatrix moves) i c = Some Draw)
      <-> Nat.even (length moves) = true).
Proof.
  assert (Nat.even (length moves) = true -> (2 <= length moves)%nat ->
          forall i : nat, (i < length moves)%nat ->
            let c := ((i + length moves / 2) mod length moves)%nat in
            (c < length moves)%nat /\ c <> i
            /\ rule (Z.of_nat (length moves)) (Z.of_nat i) (Z.of_nat c) = Draw)
    as Hhalf.
  { intros Heven Hn i Hi c.
    apply Nat.even_spec in Heven as [k Hk].
    assert (c = if decide (i < k)%nat then (i + k)%nat else (i - k)%nat) as Hc.
    { subst c. rewrite Hk. replace (2 * k)%nat with (k * 2)%nat at 1 by lia.
      rewrite Nat.div_mul by done. case_decide.
      - apply Nat.mod_small. lia.
      - replace (i + k)%nat with (i - k + 1 * (2 * k))%nat by lia.
        rewrite Nat.Div0.mod_add. apply Nat.mod_small. lia. }
    clearbody c. split; [case_decide; lia|]. split; [case_decide; lia|].
    apply rule_draw; [lia | case_decide; lia |]. right.
    rewrite mod_diff by (case_decide; lia).
    repeat case_decide; lia. }
  split; [apply square_generateRulesMatrix|]. split.
  - intros Heven Hn i Hi c.
    destruct (Hhalf Heven Hn i Hi) as (Hc & Hne & Hrule). fold c in Hc, Hne, Hrule.
    split; [done|]. split; [done|]. split.
    + rewrite cell_generateRulesMatrix by done. by rewrite Hrule.
    + intros Hnd a b Ha Hb.
      rewrite (determineResult_present moves a b i c);
        [by rewrite Hrule | by apply indexOf_lookup.. | done | done].
  - intros Hne. split.
    + intros (i & c & Hi & Hc & Hic & Hcell).
      rewrite cell_generateRulesMatrix in Hcell by done.
      injection Hcell as Hcell. apply rule_draw in Hcell; [|lia..].
      destruct Hcell as [?|Hhalf']; [lia|].
      apply Nat.even_spec.
      exists (Z.to_nat ((Z.of_nat c - Z.of_nat i) mod Z.of_nat (length moves))).
      lia.
    + intros Heven.
      assert (2 <= length moves)%nat as Hn.
      { destruct moves as [|x [|y l]]; simpl in *; (done || lia). }
      destruct (Hhalf Heven Hn 0%nat ltac:(lia)) as (Hc & Hc0 & Hrule).
      eexists 0%nat, _. split; [lia|]. split; [exact Hc|].
      split; [done|].
      rewrite cell_generateRulesMatrix by (done || lia). by rewrite Hrule.
Qed.

(** C8: on the relation built from any list of moves, [determineResult]
    throws its invalid-move error exactly when one of the two moves is not
    in the list, and returns an outcome exactly when both are; it never
    returns [undefined] and throws nothing else. *)
Theorem C8_unknown_move moves a b :
  (determineResult (new moves) a b = Throw invalid_move_message
   <-> a ∉ moves \/ b ∉ moves)
  /\ ((exists o, determineResult (new moves) a b = Normal o)
      <-> a ∈ moves /\ b ∈ moves).
Proof.
  destruct (decide (a ∈ moves)) as [Ha|Ha];
    [destruct (decide (b ∈ moves)) as [Hb|Hb]|].
  - destruct (indexOf_present moves a Ha) as (i & Hi & Hlooki & _).
    destruct (indexOf_present moves b Hb) as (j & Hj & Hlookj & _).
    apply lookup_lt_Some in Hlooki, Hlookj.
    rewrite (determineResult_present moves a b i j) by done.
    split; split; try done; [tauto | eauto].
  - rewrite (determineResult_absent moves a b) by auto.
    split; split; try done; [auto | intros [o [=]] | tauto].
  - rewrite (determineResult_absent moves a b) by auto.
    split; split; try done; [auto | intros [o [=]] | tauto].
Qed.

End Claims.

(** ** Further properties of the rules matrix *)

Section MatrixShape.
Import GameRules.

Lemma rule_flip n i j :
  0 <= i < n -> 0 <= j < n -> rule n j i = flip_outcome (rule n i j).
Proof.
  intros Hi Hj. unfold rule. rewrite !mod_diff by lia.
  repeat case_decide; try done; lia.
Qed.

(** X1: for a list of moves of any length [n] (valid or not) and indices
    [i, j < n], the cell [rulesMatrix[i][j]] is ['Win'] exactly when the
    forward distance [(j - i) mod n] lies in [1 .. floor((n-1)/2)], ['Lose']
    exactly when the backward distance [(i - j) mod n] lies in that range,
    and ['Draw'] otherwise. *)
Theorem X1_matrix_cells moves (i j : nat) :
  (i < length moves)%nat -> (j < length moves)%nat ->
  let n := Z.of_nat (length moves) in
  let forward := (Z.of_nat j - Z.of_nat i) mod n in
  let backward := (Z.of_nat i - Z.of_nat j) mod n in
  (cell (generateRulesMatrix moves) i j = Some Win
   <-> 1 <= forward <= (n - 1) / 2)
  /\ (cell (generateRulesMatrix moves) i j = Some Lose
      <-> 1 <= backward <= (n - 1) / 2)
  /\ (cell (generateRulesMatrix moves) i j = Some Draw
      <-> ~ 1 <= forward <= (n - 1) / 2 /\ ~ 1 <= backward <= (n - 1) / 2).
Proof.
  intros Hi Hj n forward backward.
  rewrite cell_generateRulesMatrix by done. fold n.
  unfold rule. fold forward backward.
  assert (1 <= forward <= (n - 1) / 2 -> 1 <= backward <= (n - 1) / 2 -> False)
    as Hexcl.
  { subst forward backward. rewrite !mod_diff by lia.
    repeat case_decide; div_lia. }
  repeat case_decide; repeat split; intros; try done; try div_lia;
    try (exfalso; div_lia); try tauto.
Qed.

Lemma X1_witness :
  cell (generateRulesMatrix ["a"; "b"; "c"; "d"]%string) 3 0 = Some Win.
Proof.
  refine (proj2 (proj1 (X1_matrix_cells ["a"; "b"; "c"; "d"]%string 3 0 _ _)) _).
  - simpl. lia.
  - simpl. lia.
  - vm_compute. split; discriminate.
Defined.

(** X2: for a list of moves of any length, the matrix is its own transpose
    with ['Win'] and ['Lose'] exchanged: [rulesMatrix[j][i]] is the flipped
    [rulesMatrix[i][j]]. *)
Theorem X2_matrix_transpose moves (i j : nat) :
  (i < length moves)%nat -> (j < length moves)%nat ->
  cell (generateRulesMatrix moves) j i
  = flip_outcome <$> cell (generateRulesMatrix moves) i j.
Proof.
  intros Hi Hj. rewrite !cell_generateRulesMatrix by done. simpl.
  f_equal. apply rule_flip; lia.
Qed.

Lemma X2_witness :
  cell (generateRulesMatrix ["a"; "b"; "c"; "d"]%string) 1 0
  = flip_outcome <$> cell (generateRulesMatrix ["a"; "b"; "c"; "d"]%string) 0 1.
Proof.
  apply (X2_matrix_transpose ["a"; "b"; "c"; "d"]%string 0 1); simpl; lia.
Defined.

(** X3: for a valid list of moves, two configured moves draw only when
    they are the same move. *)
Theorem X3_draw_only_with_itself moves a b :
  valid_moves moves -> a ∈ moves -> b ∈ moves ->
  determineResult (new moves) a b = Normal Draw <-> a = b.
Proof.
  intros Hvalid Ha Hb.
  destruct (indexOf_present moves a Ha) as (i & Hia & Hlooki & _).
  destruct (indexOf_present moves b Hb) as (j & Hjb & Hlookj & _).
  pose proof (lookup_lt_Some _ _ _ Hlooki) as Hi.
  pose proof (lookup_lt_Some _ _ _ Hlookj) as Hj.
  rewrite (determineResult_present moves a b i j) by done.
  destruct Hvalid as (_ & Hodd & Hnd).
  apply odd_of_nat, Z.odd_spec in Hodd as [k Hk].
  split.
  - intros [= Hdraw]. apply rule_draw in Hdraw; [|lia..].
    destruct Hdraw as [Heq|Hhalf]; [|lia].
    assert (i = j) as -> by lia. congruence.
  - intros ->. assert (i = j) as -> by lia. by rewrite rule_diag.
Qed.

Lemma X3_witness :
  determineResult (new rps) "rock" "paper" = Normal Draw
  <-> "rock"%string = "paper"%string.
Proof. apply (X3_draw_only_with_itself rps); by_evaluation. Defined.

End MatrixShape.

Section MatrixSymmetries.
Import GameRules.

(** Row [0] of a matrix of side [2h + 2]. *)
Lemma rule_row_0_even (h : nat) :
  (fun d : nat => rule (Z.of_nat (S (h + S h))) 0 (Z.of_nat d))
    <$> seq 0 (S (h + S h))
  = even_row h.
Proof.
  unfold even_row. cbn [seq].
  rewrite seq_app. cbn [seq]. rewrite !fmap_cons, !fmap_app, !fmap_cons.
  rewrite (const_fmap _ (seq 1 h) Win), (const_fmap _ (seq (S (1 + h)) h) Lose).
  - rewrite !length_seq. f_equal. f_equal. f_equal.
    unfold rule. rewrite !mod_diff by lia. repeat case_decide; try done; lia.
  - intros q x Hx. apply lookup_seq in Hx as [-> Hq]. unfold rule.
    rewrite !mod_diff by lia. repeat case_decide; try done; lia.
  - intros q x Hx. apply lookup_seq in Hx as [-> Hq]. unfold rule.
    rewrite !mod_diff by lia. repeat case_decide; try done; lia.
Qed.

(** X4: for a list of even length [n] (which the constructor accepts), each
    row of the matrix holds exactly [n/2 - 1] ['Win'], exactly [n/2 - 1]
    ['Lose'] and exactly two ['Draw']. *)
Theorem X4_even_rows moves (i : nat) row :
  Nat.even (length moves) = true ->
  generateRulesMatrix moves !! i = Some row ->
  count Win row = (length moves / 2 - 1)%nat
  /\ count Lose row = (length moves / 2 - 1)%nat
  /\ count Draw row = 2%nat.
Proof.
  intros Heven Hrow.
  assert (i < length moves)%nat as Hi.
  { rewrite <- (proj1 (square_generateRulesMatrix moves)).
    by eapply lookup_lt_Some. }
  apply Nat.even_spec in Heven as [k Hk].
  destruct k as [|h]; [lia|].
  assert (length moves = S (h + S h)) as Hn by lia.
  assert (length moves / 2 - 1 = h)%nat as ->.
  { rewrite Hk. replace (2 * S h)%nat with (S h * 2)%nat by lia.
    rewrite Nat.div_mul by done. lia. }
  assert (row ≡ₚ even_row h) as Hperm.
  { rewrite (row_generateRulesMatrix moves i row Hrow).
    rewrite rule_rotate by done. by rewrite Hn, rule_row_0_even. }
  rewrite !(count_Permutation _ _ _ Hperm). unfold even_row.
  rewrite !count_cons, !count_app, !count_cons, !count_replicate.
  repeat case_decide; try done; lia.
Qed.

Lemma X4_witness :
  count Win [Lose; Lose; Draw; Win; Win; Draw] = 2%nat
  /\ count Lose [Lose; Lose; Draw; Win; Win; Draw] = 2%nat
  /\ count Draw [Lose; Lose; Draw; Win; Win; Draw] = 2%nat.
Proof.
  apply (X4_even_rows ["a"; "b"; "c"; "d"; "e"; "f"]%string 2).
  - reflexivity.
  - by vm_compute.
Defined.

Lemma lookup_app_swap {A} (l1 l2 : list A) (i : nat) x :
  (l1 ++ l2) !! i = Some x ->
  (l2 ++ l1) !! (if decide (i < length l1)%nat then length l2 + i
                 else i - length l1)%nat = Some x.
Proof.
  intros Hi. pose proof (lookup_lt_Some _ _ _ Hi) as Hlt.
  rewrite length_app in Hlt. case_decide.
  - rewrite lookup_app_r by lia. rewrite lookup_app_l in Hi by done.
    by replace (length l2 + i - length l2)%nat with i by lia.
  - rewrite lookup_app_l by lia. by rewrite lookup_app_r in Hi by lia.
Qed.

(** X5: moving the front of a list of distinct moves to its back does not
    change the game: [determineResult] answers the same on the relation
    built from [l2 ++ l1] as on the one built from [l1 ++ l2], for all
    arguments. *)
Theorem X5_rotation l1 l2 a b :
  NoDup (l1 ++ l2) ->
  determineResult (new (l2 ++ l1)) a b = determineResult (new (l1 ++ l2)) a b.
Proof.
  intros Hnd.
  assert (NoDup (l2 ++ l1)) as Hnd' by (by rewrite (Permutation_app_comm l2 l1)).
  destruct (decide (a ∈ l1 ++ l2 /\ b ∈ l1 ++ l2)) as [[Ha Hb]|Hab].
  - destruct (indexOf_present _ a Ha) as (i & Hia & Hlooki & _).
    destruct (indexOf_present _ b Hb) as (j & Hjb & Hlookj & _).
    pose proof (lookup_lt_Some _ _ _ Hlooki) as Hi.
    pose proof (lookup_lt_Some _ _ _ Hlookj) as Hj.
    rewrite (determineResult_present (l1 ++ l2) a b i j) by done.
    pose proof (lookup_app_swap l1 l2 i a Hlooki) as Hi'.
    pose proof (lookup_app_swap l1 l2 j b Hlookj) as Hj'.
    rewrite (determineResult_present (l2 ++ l1) a b _ _
               (indexOf_lookup _ _ _ Hnd' Hi') (indexOf_lookup _ _ _ Hnd' Hj'));
      [|by eapply lookup_lt_Some..].
    f_equal. rewrite !length_app in *. unfold rule.
    destruct (decide (i < length l1)%nat), (decide (j < length l1)%nat);
      rewrite !mod_diff by lia; repeat case_decide; try done; lia.
  - assert (a ∉ l1 ++ l2 \/ b ∉ l1 ++ l2) as Habs.
    { destruct (decide (a ∈ l1 ++ l2)); [|by left].
      right. intros Hb. by apply Hab. }
    rewrite (determineResult_absent (l1 ++ l2)) by done.
    apply determineResult_absent.
    rewrite !elem_of_app in *. tauto.
Qed.

Lemma X5_witness :
  determineResult (new ["scissors"; "rock"; "paper"]) "rock" "paper"
  = determineResult (new rps) "rock" "paper".
Proof.
  apply (X5_rotation ["rock"; "paper"] ["scissors"] "rock" "paper")%string.
  by_evaluation.
Defined.

(** X6: reversing a list of distinct moves exchanges the two players:
    [determineResult(a, b)] on the relation built from the reversed list is
    [determineResult(b, a)] on the relation built from the list. *)
Theorem X6_reversal moves a b :
  NoDup moves ->
  determineResult (new (reverse moves)) a b = determineResult (new moves) b a.
Proof.
  intros Hnd.
  assert (NoDup (reverse moves)) as Hnd' by (by rewrite reverse_Permutation).
  destruct (decide (a ∈ moves /\ b ∈ moves)) as [[Ha Hb]|Hab].
  - destruct (indexOf_present _ a Ha) as (i & Hia & Hlooki & _).
    destruct (indexOf_present _ b Hb) as (j & Hjb & Hlookj & _).
    pose proof (lookup_lt_Some _ _ _ Hlooki) as Hi.
    pose proof (lookup_lt_Some _ _ _ Hlookj) as Hj.
    rewrite (determineResult_present moves b a j i) by done.
    assert (forall (k : nat) x, moves !! k = Some x ->
              reverse moves !! (length moves - S k)%nat = Some x) as Hrev.
    { intros k x Hk. pose proof (lookup_lt_Some _ _ _ Hk).
      rewrite reverse_lookup by lia. rewrite <- Hk. f_equal. lia. }
    rewrite (determineResult_present (reverse moves) a b _ _
               (indexOf_lookup _ _ _ Hnd' (Hrev _ _ Hlooki))
               (indexOf_lookup _ _ _ Hnd' (Hrev _ _ Hlookj)));
      [|rewrite length_reverse; lia..].
    f_equal. rewrite length_reverse. unfold rule.
    rewrite !mod_diff by lia. repeat case_decide; try done; lia.
  - assert (a ∉ moves \/ b ∉ moves) as Habs.
    { destruct (decide (a ∈ moves)); [|by left].
      right. intros Hb. by apply Hab. }
    rewrite (determineResult_absent moves b a) by tauto.
    apply determineResult_absent.
    rewrite !elem_of_reverse. done.
Qed.

Lemma X6_witness :
  determineResult (new ["scissors"; "paper"; "rock"]) "rock" "paper"
  = determineResult (new rps) "paper" "rock".
Proof. apply (X6_reversal rps "rock" "paper"). by_evaluation. Defined.

End MatrixSymmetries.

(** ** The help table *)

Section HelpTable.
Import GameRules.

Lemma help_rows_lookup moves (i : nat) label :
  moves !! i = Some label ->
  exists row, help_rows (new moves) !! i = Some (label, row)
              /\ generateRulesMatrix moves !! i = Some row.
Proof.
  intros Hi. pose proof (lookup_lt_Some _ _ _ Hi) as Hlt.
  destruct (lookup_lt_is_Some_2 (generateRulesMatrix moves) i) as [row Hrow].
  { by rewrite (proj1 (square_generateRulesMatrix moves)). }
  exists row. split; [|done]. by apply lookup_zip_Some.
Qed.

Lemma list_find_NoDup (l : list string) (i : nat) x :
  NoDup l -> l !! i = Some x -> list_find (fun h => h = x) l = Some (i, x).
Proof.
  intros Hnd Hi. apply list_find_Some. split; [done|]. split; [done|].
  intros j y Hj Hlt ->. pose proof (NoDup_lookup _ _ _ _ Hnd Hi Hj). lia.
Qed.

(** X7: for a list of distinct moves, the entry of the help table on the row
    of the computer's move [pc] and in the column of the user's move [user]
    is the opposite of what [determineResult(user, pc)], the call [start()]
    makes, returns: ['Win'] in the table where the game reports ['Lose'],
    and the other way round. *)
Theorem X7_help_table_is_transposed moves user pc :
  NoDup moves -> user ∈ moves -> pc ∈ moves ->
  exists o, help_entry (new moves) pc user = Some o
            /\ determineResult (new moves) user pc = Normal (flip_outcome o).
Proof.
  intros Hnd Huser Hpc.
  destruct (indexOf_present moves user Huser) as (j & Hju & Hlookj & _).
  destruct (indexOf_present moves pc Hpc) as (i & Hip & Hlooki & _).
  pose proof (lookup_lt_Some _ _ _ Hlooki) as Hi.
  pose proof (lookup_lt_Some _ _ _ Hlookj) as Hj.
  destruct (help_rows_lookup moves i pc Hlooki) as (row & Hrow & Hmatrix).
  exists (rule (Z.of_nat (length moves)) (Z.of_nat i) (Z.of_nat j)). split.
  - unfold help_entry.
    assert (list_find (fun r : string * list Outcome => r.1 = pc)
              (help_rows (new moves)) = Some (i, (pc, row))) as ->.
    { apply list_find_Some. split; [done|]. split; [done|].
      intros k [label cells] Hk Hlt Hlabel. simpl in Hlabel. subst label.
      apply lookup_zip_Some in Hk as [Hk _]. simpl in Hk.
      pose proof (NoDup_lookup _ _ _ _ Hnd Hlooki Hk). lia. }
    simpl. rewrite (list_find_NoDup moves j user Hnd Hlookj). simpl.
    pose proof (cell_generateRulesMatrix moves i j Hi Hj) as Hcell.
    unfold cell in Hcell. by rewrite Hmatrix in Hcell.
  - rewrite (determineResult_present moves user pc j i) by done.
    f_equal. apply rule_flip; lia.
Qed.

Lemma X7_witness :
  exists o, help_entry (new rps) "scissors" "rock" = Some o
            /\ determineResult (new rps) "rock" "scissors"
               = Normal (flip_outcome o).
Proof.
  apply (X7_help_table_is_transposed rps "rock" "scissors"); by_evaluation.
Defined.

Lemma utf16_length_app s1 s2 :
  JS.utf16_length (s1 +:+ s2) = (JS.utf16_length s1 + JS.utf16_length s2)%nat.
Proof. induction s1 as [|c s1 IH]; simpl; [done | rewrite IH; lia]. Qed.

Lemma utf16_length_repeat (c : Ascii.ascii) count :
  JS.utf16_length (JS.repeat (String c EmptyString) count)
  = (JS.code_units c * count)%nat.
Proof.
  induction count as [|count IH]; [simpl; lia|].
  cbn [JS.repeat]. rewrite utf16_length_app, IH. simpl. lia.
Qed.

Lemma utf16_length_padEnd s target :
  (JS.utf16_length s <= target)%nat ->
  JS.utf16_length (JS.padEnd s target) = target.
Proof.
  intros Hle. unfold JS.padEnd.
  rewrite utf16_length_app, utf16_length_repeat. simpl. lia.
Qed.

(** Fields of one width, joined. *)
Lemma utf16_length_join sep width fields :
  Forall (fun s => JS.utf16_length s = width) fields ->
  JS.utf16_length (JS.join sep fields)
  = (width * length fields + JS.utf16_length sep * (length fields - 1))%nat.
Proof.
  induction 1 as [|s fields Hs Hfields IH]; [simpl; lia|].
  destruct fields as [|s' fields].
  - simpl. lia.
  - change (JS.join sep (s :: s' :: fields))
      with (s +:+ sep +:+ JS.join sep (s' :: fields)).
    rewrite !utf16_length_app, IH, Hs. simpl length. nia.
Qed.

Lemma lookup_pairs {A B} (f g : A -> B) (l : list A) (i : nat) x :
  l !! i = Some x ->
  mjoin ((fun r => [f r; g r]) <$> l) !! (2 * i)%nat = Some (f x)
  /\ mjoin ((fun r => [f r; g r]) <$> l) !! (2 * i + 1)%nat = Some (g x).
Proof.
  intros Hi.
  assert (Forall (fun p : list B => length p = 2%nat)
            ((fun r => [f r; g r]) <$> l)) as Hpairs.
  { apply Forall_fmap, Forall_true. done. }
  split.
  - replace (2 * i)%nat with (i * 2 + 0)%nat by lia.
    apply (join_lookup_Some_same_length' 2); [done | lia |].
    exists [f x; g x]. by rewrite list_lookup_fmap, Hi.
  - replace (2 * i + 1)%nat with (i * 2 + 1)%nat by lia.
    apply (join_lookup_Some_same_length' 2); [done | lia |].
    exists [f x; g x]. by rewrite list_lookup_fmap, Hi.
Qed.

(** X8: when no move is longer than ten characters, every row of the
    printed help table is [11 n + 14] characters wide and the border printed
    under it [10 n + 15]: a row sticks out of the border by [n - 1]
    characters. *)
Theorem X8_help_table_widths (bold : string -> string) moves (i : nat) :
  Forall (fun move => (JS.utf16_length move <= 10)%nat) moves ->
  (i < length moves)%nat ->
  exists line border,
    displayHelp bold (new moves) !! (3 + 2 * i)%nat = Some (Log line)
    /\ displayHelp bold (new moves) !! (3 + 2 * i + 1)%nat = Some (Log border)
    /\ JS.utf16_length line = (11 * length moves + 14)%nat
    /\ JS.utf16_length border = (10 * length moves + 15)%nat.
Proof.
  intros Hshort Hi.
  destruct (lookup_lt_is_Some_2 moves i Hi) as [label Hlabel].
  destruct (help_rows_lookup moves i label Hlabel) as (row & Hrow & Hmatrix).
  assert (length row = length moves) as Hlen.
  { destruct (square_generateRulesMatrix moves) as [_ Hrows].
    rewrite Forall_lookup in Hrows. by apply (Hrows i). }
  unfold displayHelp.
  set (border := ("+" +:+ JS.repeat "-" (13 + length (GameRules.moves (new moves)) * 10)
                  +:+ "+")%string).
  set (line := fun r : string * list Outcome =>
         ("| " +:+ JS.join "|"
                     (JS.padEnd r.1 10
                      :: ((fun o => JS.padEnd (Outcome_string o) 10) <$> r.2))
          +:+ " |")%string).
  destruct (lookup_pairs (fun r => Log (line r)) (fun _ => Log border)
              (help_rows (new moves)) i _ Hrow) as [Hline Hborder].
  exists (line (label, row)), border.
  split; [|split; [|split]].
  - rewrite lookup_app_r by (simpl; lia).
    replace (3 + 2 * i - length [Log border; Log _; Log border])%nat
      with (2 * i)%nat by (simpl; lia).
    by rewrite lookup_app_l by (by eapply lookup_lt_Some).
  - rewrite lookup_app_r by (simpl; lia).
    replace (3 + 2 * i + 1 - length [Log border; Log _; Log border])%nat
      with (2 * i + 1)%nat by (simpl; lia).
    by rewrite lookup_app_l by (by eapply lookup_lt_Some).
  - unfold line. simpl fst; simpl snd.
    rewrite !utf16_length_app, (utf16_length_join _ 10).
    + simpl. rewrite length_fmap, Hlen. lia.
    + constructor.
      * apply utf16_length_padEnd.
        rewrite Forall_lookup in Hshort. by apply (Hshort i).
      * apply Forall_fmap, Forall_true. by intros [].
  - unfold border. rewrite !utf16_length_app, utf16_length_repeat.
    simpl. lia.
Qed.

Lemma X8_witness :
  exists line border,
    displayHelp (fun s => s) (new rps) !! 5%nat = Some (Log line)
    /\ displayHelp (fun s => s) (new rps) !! 6%nat = Some (Log border)
    /\ JS.utf16_length line = 47%nat
    /\ JS.utf16_length border = 45%nat.
Proof.
  apply (X8_help_table_widths (fun s => s) rps 1).
  - by_evaluation.
  - simpl. lia.
Defined.

End HelpTable.

(** ** Numerals: printing and reading *)

Section Numerals.

Lemma lsb_digits_value fuel : forall n,
  (n < fuel)%nat ->
  foldr (fun d acc => d + 10 * acc)%nat 0%nat (JS.lsb_digits fuel n) = n.
Proof.
  induction fuel as [|fuel IH]; intros n Hn; [lia|]. cbn [JS.lsb_digits].
  pose proof (Nat.div_mod_eq n 10) as Hdiv.
  destruct (Nat.eqb_spec (n / 10) 0) as [H0|Hne]; cbn [foldr].
  - lia.
  - rewrite IH; lia.
Qed.

Lemma lsb_digits_below fuel : forall n,
  Forall (fun d => d < 10)%nat (JS.lsb_digits fuel n).
Proof.
  induction fuel as [|fuel IH]; intros n; cbn [JS.lsb_digits]; [constructor|].
  constructor; [apply Nat.mod_upper_bound; lia|].
  destruct (n / 10 =? 0)%nat; [constructor | apply IH].
Qed.

(** The most significant digit of a positive number is not zero. *)
Lemma lsb_digits_last fuel : forall n,
  (0 < n < fuel)%nat ->
  exists low d, JS.lsb_digits fuel n = low ++ [d] /\ (1 <= d <= 9)%nat.
Proof.
  induction fuel as [|fuel IH]; intros n Hn; [lia|]. cbn [JS.lsb_digits].
  pose proof (Nat.div_mod_eq n 10) as Hdiv.
  pose proof (Nat.mod_upper_bound n 10) as Hmod.
  destruct (Nat.eqb_spec (n / 10) 0) as [H0|Hne].
  - exists [], (n mod 10)%nat. split; [done|lia].
  - destruct (IH (n / 10)%nat) as (low & d & Heq & Hd); [lia|].
    exists ((n mod 10)%nat :: low), d. by rewrite Heq.
Qed.

Lemma digit_value_digit_char d :
  (d < 10)%nat -> JS.digit_value 10 (JS.digit_char d) = Some (Z.of_nat d).
Proof.
  intros Hd. do 10 (destruct d as [|d]; [reflexivity|]). lia.
Qed.

Lemma leading_digits_numeral digits suffix :
  Forall (fun d => d < 10)%nat digits ->
  JS.leading_digits 10 suffix = [] ->
  JS.leading_digits 10 (string_of_list_ascii (JS.digit_char <$> digits) +:+ suffix)
  = Z.of_nat <$> digits.
Proof.
  intros Hdigits Hsuffix.
  induction Hdigits as [|d digits Hd _ IH]; [done|].
  cbn [fmap list_fmap string_of_list_ascii].
  change (JS.leading_digits 10
            (String (JS.digit_char d)
               (string_of_list_ascii (JS.digit_char <$> digits) +:+ suffix))
          = Z.of_nat d :: (Z.of_nat <$> digits)).
  cbn [JS.leading_digits].
  rewrite digit_value_digit_char by done. by rewrite IH.
Qed.

Lemma digits_value_reverse digits :
  JS.digits_value 10 (Z.of_nat <$> reverse digits)
  = Z.of_nat (foldr (fun d acc => d + 10 * acc)%nat 0%nat digits).
Proof.
  unfold JS.digits_value. induction digits as [|d digits IH]; [done|].
  rewrite reverse_cons, fmap_app, foldl_app, IH. simpl. lia.
Qed.

(** [parseInt] on a string whose first character is a digit from 1 to 9
    reads the decimal digits at its head. *)
Lemma parseInt_decimal d s :
  (1 <= d <= 9)%nat ->
  JS.parseInt (String (JS.digit_char d) s)
  = Some (JS.digits_value 10
            (Z.of_nat d :: JS.leading_digits 10 s)).
Proof.
  intros Hd. rewrite <- (Z.mul_1_l (JS.digits_value _ _)).
  do 10 (destruct d as [|d]; [(lia || reflexivity)|]). lia.
Qed.

(** Reading back a printed positive number, whatever follows it that does
    not start with a digit. *)
Lemma parseInt_Number_toString n suffix :
  (0 < n)%nat -> JS.leading_digits 10 suffix = [] ->
  JS.parseInt (JS.Number_toString n +:+ suffix) = Some (Z.of_nat n)
  /\ exists d s, (1 <= d <= 9)%nat
                 /\ JS.Number_toString n +:+ suffix = String (JS.digit_char d) s.
Proof.
  intros Hn Hsuffix. unfold JS.Number_toString.
  destruct (lsb_digits_last (S n) n) as (low & d & Hlow & Hd); [lia|].
  pose proof (lsb_digits_below (S n) n) as Hbelow.
  pose proof (lsb_digits_value (S n) n ltac:(lia)) as Hvalue.
  rewrite Hlow in Hbelow, Hvalue |- *.
  rewrite reverse_app, reverse_singleton.
  cbn [app fmap list_fmap string_of_list_ascii].
  change (String (JS.digit_char d)
            (string_of_list_ascii (JS.digit_char <$> reverse low)) +:+ suffix)
    with (String (JS.digit_char d)
            (string_of_list_ascii (JS.digit_char <$> reverse low) +:+ suffix)).
  split; [|eauto].
  rewrite parseInt_decimal by done.
  apply Forall_app in Hbelow as [Hbelow _].
  rewrite leading_digits_numeral;
    [|by apply Forall_reverse|done].
  change (Z.of_nat d :: (Z.of_nat <$> reverse low))
    with (Z.of_nat <$> (d :: reverse low)).
  replace (d :: reverse low) with (reverse (low ++ [d]))
    by (by rewrite reverse_app, reverse_singleton).
  by rewrite digits_value_reverse, Hvalue.
Qed.

End Numerals.

(** ** A round at the terminal *)

Section Round.
Variable bold : string -> string.

Lemma emit_emit events1 events2 (r : run) :
  emit events1 (emit events2 r) = emit (events1 ++ events2) r.
Proof. unfold emit. simpl. by rewrite app_assoc. Qed.

(** However the input goes, [getUserMove] ends waiting for input, or by
    [process.exit(0)], or by one call of the callback, on a configured
    move. *)
Lemma getUserMove_cases game callback inputs :
  exists events,
    getUserMove bold game callback inputs = (events, Waiting)
    \/ getUserMove bold game callback inputs = (events, Exit 0)
    \/ exists move, move ∈ RockPaperScissorsGame.moves game
         /\ getUserMove bold game callback inputs
            = emit events (callback (Some move)).
Proof.
  induction inputs as [|input inputs IH]; cbn [getUserMove].
  { eexists. left. reflexivity. }
  assert (forall prefix, exists events,
            emit prefix (getUserMove bold game callback inputs) = (events, Waiting)
            \/ emit prefix (getUserMove bold game callback inputs) = (events, Exit 0)
            \/ exists move, move ∈ RockPaperScissorsGame.moves game
                 /\ emit prefix (getUserMove bold game callback inputs)
                    = emit events (callback (Some move))) as Hagain.
  { intros prefix. destruct IH as [events [->|[->|(move & Hmove & ->)]]].
    - eexists. left. reflexivity.
    - eexists. right; left. reflexivity.
    - eexists. right; right. exists move. split; [done|]. apply emit_emit. }
  destruct (decide (input = "?"%string)).
  { rewrite emit_emit. apply Hagain. }
  destruct (decide (input = "0"%string)).
  { eexists. right; left. reflexivity. }
  destruct (JS.parseInt input) as [parsed|]; [|rewrite emit_emit; apply Hagain].
  destruct (Z.leb_spec 0 (parsed - 1)) as [Hlow|Hlow]; simpl;
    [|rewrite emit_emit; apply Hagain].
  destruct (Z.ltb_spec (parsed - 1)
              (Z.of_nat (length (RockPaperScissorsGame.moves game))))
    as [Hhigh|Hhigh]; [|rewrite emit_emit; apply Hagain].
  destruct (lookup_lt_is_Some_2 (RockPaperScissorsGame.moves game)
              (Z.to_nat (parsed - 1))) as [move Hmove]; [lia|].
  eexists. right; right. exists move. split.
  - by eapply list_elem_of_lookup_2.
  - by rewrite Hmove.
Qed.

(** X9: the number that [displayMenu] prints in front of a move selects
    that move: when [moves[i]] is [move], the menu's line for it is
    ["<i+1> - <move>"], and an input that is the numeral of [i + 1],
    followed or not by text that does not start with a digit, makes
    [getUserMove] call the callback with [move]. *)
Theorem X9_menu_number_selects_move moves (i : nat) move suffix callback rest :
  moves !! i = Some move ->
  JS.leading_digits 10 suffix = [] ->
  displayMenu (RockPaperScissorsGame.new moves) !! S i
  = Some (Log (JS.Number_toString (i + 1) +:+ " - " +:+ move))
  /\ getUserMove bold (RockPaperScissorsGame.new moves) callback
       ((JS.Number_toString (i + 1) +:+ suffix) :: rest)
     = emit [Write "Enter your move: "] (callback (Some move)).
Proof.
  intros Hi Hsuffix. split.
  - unfold displayMenu.
    cbn [RockPaperScissorsGame.moves RockPaperScissorsGame.new].
    rewrite lookup_app_r by (simpl; lia).
    replace (S i - length [Log "Available moves:"])%nat with i by (simpl; lia).
    rewrite lookup_app_l by (rewrite length_imap; by eapply lookup_lt_Some).
    by rewrite list_lookup_imap, Hi.
  - destruct (parseInt_Number_toString (i + 1) suffix ltac:(lia) Hsuffix)
      as (Hparse & d & s & Hd & Hhead).
    cbn [getUserMove]. rewrite Hparse. rewrite Hhead.
    assert (String (JS.digit_char d) s <> "?"%string) as Hhelp.
    { do 10 (destruct d as [|d]; [(lia || done)|]). lia. }
    assert (String (JS.digit_char d) s <> "0"%string) as Hexit.
    { do 10 (destruct d as [|d]; [(lia || done)|]). lia. }
    rewrite (decide_False _ _ Hhelp), (decide_False _ _ Hexit).
    pose proof (lookup_lt_Some _ _ _ Hi) as Hlt. simpl.
    destruct (Z.leb_spec 0 (Z.of_nat (i + 1) - 1)); [|lia].
    destruct (Z.ltb_spec (Z.of_nat (i + 1) - 1) (Z.of_nat (length moves)));
      [|lia].
    simpl. replace (Z.to_nat (Z.of_nat (i + 1) - 1)) with i by lia.
    by rewrite Hi.
Qed.


(** The report on two configured moves. *)
Lemma report_configured moves key computerMove userMove :
  userMove ∈ moves -> computerMove ∈ moves ->
  exists result,
    GameRules.determineResult (GameRules.new moves) userMove computerMove
      = Normal result
    /\ report (RockPaperScissorsGame.new moves) key computerMove (Some userMove)
       = ([ Log ("Your move: " +:+ userMove);
            Log ("Computer move: " +:+ computerMove);
            Log ("Result: You " +:+ Outcome_string result +:+ "!");
            Log ("HMAC key: " +:+ crypto.hex key) ], Done).
Proof.
  intros Hu Hc.
  destruct (indexOf_present moves userMove Hu) as (i & Hi & Hlooki & _).
  destruct (indexOf_present moves computerMove Hc) as (j & Hj & Hlookj & _).
  apply lookup_lt_Some in Hlooki, Hlookj.
  eexists. split.
  - by apply (determineResult_present moves userMove computerMove i j).
  - unfold report. cbn [RockPaperScissorsGame.rules RockPaperScissorsGame.new].
    by rewrite (determineResult_present moves userMove computerMove i j).
Qed.

(** X11: the script never ends by an uncaught exception: for any arguments,
    any key, any input and a drawn index inside the list of moves, it ends
    by [process.exit(1)] (arguments refused), by [process.exit(0)], waiting
    for input, or through with the round. *)
Theorem X11_script_never_throws args key pick inputs :
  (valid_moves args -> (pick < length args)%nat) ->
  exists events,
    script bold args key pick inputs = (events, Exit 1)
    \/ script bold args key pick inputs = (events, Exit 0)
    \/ script bold args key pick inputs = (events, Waiting)
    \/ script bold args key pick inputs = (events, Done).
Proof.
  intros Hpick. unfold script.
  destruct (decide (valid_moves args)) as [Hvalid|Hinvalid].
  - rewrite (proj2 (validateArguments_valid args) Hvalid).
    destruct (lookup_lt_is_Some_2 args pick (Hpick Hvalid)) as [c Hc].
    unfold start. cbn [RockPaperScissorsGame.moves RockPaperScissorsGame.new].
    rewrite Hc.
    destruct (getUserMove_cases (RockPaperScissorsGame.new args)
                (report (RockPaperScissorsGame.new args) key c) inputs)
      as [events [->|[->|(move & Hmove & ->)]]].
    + eexists. right; right; left. reflexivity.
    + eexists. right; left. reflexivity.
    + destruct (report_configured args key c move Hmove) as (result & _ & ->).
      { by eapply list_elem_of_lookup_2. }
      eexists. right; right; right. reflexivity.
  - rewrite (proj2 (validateArguments_invalid args) Hinvalid).
    eexists. left. reflexivity.
Qed.

(** X12: [start()] commits before it reads: the first line it prints is the
    HMAC of the computer's move under the key, whatever the input; and when
    the round is played through, the last four lines give the user's move (a
    configured one), that same computer's move, the result
    [determineResult] returns for the two, and that same key in
    hexadecimal. *)
Theorem X12_commit_then_reveal moves key (pick : nat) computerMove inputs :
  moves !! pick = Some computerMove ->
  exists events,
    (start bold (RockPaperScissorsGame.new moves) key pick inputs).1
    = Log ("HMAC: " +:+ HMACCalculator.calculateHMAC key computerMove) :: events
    /\ ((start bold (RockPaperScissorsGame.new moves) key pick inputs).2 = Done ->
        exists before userMove result,
          events
          = before ++ [ Log ("Your move: " +:+ userMove);
                        Log ("Computer move: " +:+ computerMove);
                        Log ("Result: You " +:+ Outcome_string result +:+ "!");
                        Log ("HMAC key: " +:+ crypto.hex key) ]
          /\ userMove ∈ moves
          /\ GameRules.determineResult (GameRules.new moves) userMove computerMove
             = Normal result).
Proof.
  intros Hpick. unfold start.
  cbn [RockPaperScissorsGame.moves RockPaperScissorsGame.new]. rewrite Hpick.
  destruct (getUserMove_cases (RockPaperScissorsGame.new moves)
              (report (RockPaperScissorsGame.new moves) key computerMove) inputs)
    as [events [->|[->|(move & Hmove & ->)]]].
  - eexists. split; [reflexivity|]. intros [=].
  - eexists. split; [reflexivity|]. intros [=].
  - destruct (report_configured moves key computerMove move Hmove)
      as (result & Hresult & ->).
    { by eapply list_elem_of_lookup_2. }
    eexists. split; [reflexivity|]. intros _.
    exists (displayMenu (RockPaperScissorsGame.new moves) ++ events), move, result.
    split; [|done]. cbn [emit fst snd app]. by rewrite <- app_assoc.
Qed.

End Round.

Lemma X9_witness :
  displayMenu (RockPaperScissorsGame.new rps) !! 2%nat = Some (Log "2 - paper")
  /\ getUserMove (fun s => s) (RockPaperScissorsGame.new rps) (fun _ => ([], Done))
       ["2 abc"%string]
     = emit [Write "Enter your move: "] ([], Done).
Proof.
  apply (X9_menu_number_selects_move (fun s => s) rps 1 "paper" " abc"
           (fun _ => ([], Done)) []); reflexivity.
Defined.

Lemma X11_witness :
  exists events,
    script (fun s => s) rps [] 2 ["7"; "3"]%string = (events, Exit 1)
    \/ script (fun s => s) rps [] 2 ["7"; "3"]%string = (events, Exit 0)
    \/ script (fun s => s) rps [] 2 ["7"; "3"]%string = (events, Waiting)
    \/ script (fun s => s) rps [] 2 ["7"; "3"]%string = (events, Done).
Proof. apply (X11_script_never_throws (fun s => s) rps [] 2). intros _. simpl. lia. Defined.

Lemma X12_witness :
  exists events,
    (start (fun s => s) (RockPaperScissorsGame.new rps) [] 0 ["1"]%string).1
    = Log ("HMAC: " +:+ HMACCalculator.calculateHMAC [] "rock") :: events
    /\ ((start (fun s => s) (RockPaperScissorsGame.new rps) [] 0 ["1"]%string).2 = Done ->
        exists before userMove result,
          events
          = before ++ [ Log ("Your move: " +:+ userMove);
                        Log ("Computer move: " +:+ "rock");
                        Log ("Result: You " +:+ Outcome_string result +:+ "!");
                        Log ("HMAC key: " +:+ crypto.hex []) ]
          /\ userMove ∈ rps
          /\ GameRules.determineResult (GameRules.new rps) userMove "rock"
             = Normal result).
Proof. apply (X12_commit_then_reveal (fun s => s) rps [] 0 "rock" ["1"]%string). reflexivity. Defined.

(** ** The revealed key and the shape of the game *)

Section Reveal.
Import GameRules.

Lemma unhex_hex bytes : unhex (crypto.hex bytes) = Some bytes.
Proof.
  induction bytes as [|b bytes IH]; [done|].
  cbn [crypto.hex unhex]. rewrite IH.
  by destruct b.
Qed.

(** X13: the hexadecimal form in which [start()] prints the key determines
    the key: two keys with the same hexadecimal form are the same bytes. *)
Theorem X13_hex_key_is_unambiguous (key1 key2 : list byte) :
  crypto.hex key1 = crypto.hex key2 -> key1 = key2.
Proof.
  intros Heq. pose proof (unhex_hex key1) as H1.
  rewrite Heq, unhex_hex in H1. congruence.
Qed.

Lemma X13_witness : [x01; xff] = [x01; xff].
Proof. apply (X13_hex_key_is_unambiguous [x01; xff] [x01; xff]). reflexivity. Defined.

(** X14: for a valid list of moves, every move lies on a cycle of three:
    it wins against some move, which wins against a third, which wins
    against it; no move is the strongest or the weakest. *)
Theorem X14_every_move_on_a_cycle moves a :
  valid_moves moves -> a ∈ moves ->
  exists b c, b ∈ moves /\ c ∈ moves
    /\ determineResult (new moves) a b = Normal Win
    /\ determineResult (new moves) b c = Normal Win
    /\ determineResult (new moves) c a = Normal Win.
Proof.
  intros (Hlen & Hodd & Hnd) Ha.
  destruct (indexOf_present moves a Ha) as (i & Hia & Hlooki & _).
  pose proof (lookup_lt_Some _ _ _ Hlooki) as Hi.
  apply Nat.odd_spec in Hodd as [h Hh].
  set (j := if decide (i + 1 < length moves)%nat then (i + 1)%nat
            else (i + 1 - length moves)%nat).
  set (k := if decide (i + 1 + h < length moves)%nat then (i + 1 + h)%nat
            else (i + 1 + h - length moves)%nat).
  assert (j < length moves)%nat as Hj by (subst j; case_decide; lia).
  assert (k < length moves)%nat as Hk by (subst k; case_decide; lia).
  destruct (lookup_lt_is_Some_2 moves j Hj) as [b Hb].
  destruct (lookup_lt_is_Some_2 moves k Hk) as [c Hc].
  pose proof (indexOf_lookup moves j b Hnd Hb) as Hjb.
  pose proof (indexOf_lookup moves k c Hnd Hc) as Hkc.
  exists b, c.
  split; [by eapply list_elem_of_lookup_2|].
  split; [by eapply list_elem_of_lookup_2|].
  rewrite (determineResult_present moves a b i j) by done.
  rewrite (determineResult_present moves b c j k) by done.
  rewrite (determineResult_present moves c a k i) by done.
  unfold rule. subst j k.
  repeat split; f_equal;
    destruct (decide (i + 1 < length moves)%nat),
             (decide (i + 1 + h < length moves)%nat);
    rewrite !mod_diff by lia; repeat case_decide; try done; lia.
Qed.

Lemma X14_witness :
  exists b c, b ∈ rps /\ c ∈ rps
    /\ determineResult (new rps) "paper" b = Normal Win
    /\ determineResult (new rps) b c = Normal Win
    /\ determineResult (new rps) c "paper" = Normal Win.
Proof. apply (X14_every_move_on_a_cycle rps "paper"); by_evaluation. Defined.

End Reveal.
